(** * ms-priceFetcher: the expiring cache, the batch fetch and the alert registry

A shallow embedding of [internal/service/service.go],
[internal/service/alpha_vantage.go] and [internal/service/alerts.go].

Conventions of the embedding:
- [float64] values are IEEE-754 binary64 values ([spec_float]); the Go
  operators [<] and [>] are [SFltb] with its arguments in the matching
  order, so every comparison with a NaN is false;
- a [time.Time] instant is an integer number of nanoseconds ([Z]);
  [t.After(u)] is [u < t];
- a Go [map[string]T] is a [gmap string T]; the order in which [range]
  visits a map is not fixed by Go, so every loop over a map asks the
  runtime for the visiting order, which can be any order of the keys;
- calls that leave the process (the upstream quote source, the webhook
  endpoint, the clock) are oracles over an abstract world that is threaded
  through the code; an evaluation pass over the alerts also returns the
  list of what it asked for and what it logged. *)

From Stdlib Require Import SpecFloat.
From stdpp Require Import gmap strings list fin_maps pretty sorting.

Local Open Scope string_scope.
Local Open Scope list_scope.
Local Open Scope Z_scope.

(** ** float64 *)

Module Float64.

Abbreviation float64 := spec_float.

(** Go [a < b] and [a > b] on float64. *)
Definition lt (a b : float64) : bool := SFltb a b.
Definition gt (a b : float64) : bool := SFltb b a.
(** Go [a == b] on float64. *)
Definition eqb (a b : float64) : bool := SFeqb a b.

Definition is_finite (a : float64) : bool :=
  match a with
  | S754_zero _ | S754_finite _ _ _ => true
  | _ => false
  end.

(** The binary64 literals that occur in the sources and in the examples:
    [S754_finite s m e] is [(-1)^s * m * 2^e] with a 53 bit mantissa. *)
Definition f0 : float64 := S754_zero false.
Definition f90 : float64 := S754_finite false 6333186975989760 (-46).
Definition f100 : float64 := S754_finite false 7036874417766400 (-46).
Definition f101 : float64 := S754_finite false 7107243161944064 (-46).
Definition f150 : float64 := S754_finite false 5277655813324800 (-45).
Definition f300 : float64 := S754_finite false 5277655813324800 (-44).
Definition f2800 : float64 := S754_finite false 6157265115545600 (-41).
(** The doubles nearest to 100.001 and to 100.004. *)
Definition f100_001 : float64 := S754_finite false 7036944786510578 (-46).
Definition f100_004 : float64 := S754_finite false 7037155892743111 (-46).

(** *** [fmt.Sprintf("%.2f", x)]

Go prints the exact binary value rounded to two decimals, a tie going
to the even digit; the sign of a negative zero is kept, and the
non-finite values print as [NaN], [+Inf] and [-Inf]. *)

(** The integer nearest to [n / d] for [0 < d], ties to even. *)
Definition round_half_even (n d : Z) : Z :=
  let q := n / d in
  match 2 * (n mod d) ?= d with
  | Lt => q
  | Gt => q + 1
  | Eq => if Z.even q then q else q + 1
  end.

(** [m * 2^e] in hundredths. *)
Definition hundredths (m : positive) (e : Z) : Z :=
  if 0 <=? e then 100 * Z.pos m * 2 ^ e
  else round_half_even (100 * Z.pos m) (2 ^ (- e)).

Definition two_digits (n : Z) : string :=
  (if n <? 10 then "0" else "") +:+ pretty n.

Definition fixed2 (h : Z) : string :=
  pretty (h / 100) +:+ "." +:+ two_digits (h mod 100).

Definition sign_prefix (s : bool) : string := if s then "-" else "".

Definition Sprintf_2f (x : float64) : string :=
  match x with
  | S754_nan => "NaN"
  | S754_infinity s => if s then "-Inf" else "+Inf"
  | S754_zero s => sign_prefix s +:+ "0.00"
  | S754_finite s m e => sign_prefix s +:+ fixed2 (hundredths m e)
  end.

End Float64.

Import Float64.

(** A [time.Time] instant, in nanoseconds. *)
Abbreviation Time := Z.

(** [t.After(u)] *)
Definition After (t u : Time) : bool := u <? t.

(** ** Errors, state passing and the runtime

A Go [(T, error)] is a [result T]; an [error] alone is an [option string]
([None] for [nil]). *)

Inductive result (A : Type) : Type :=
| Ok (a : A)
| Err (msg : string).
Arguments Ok {A} a.
Arguments Err {A} msg.

Definition is_ok {A} (r : result A) : bool :=
  match r with Ok _ => true | Err _ => false end.

(** [fmt.Sprintf("%v", errors)] for a slice of errors. *)
Definition fmt_errors (errors : list string) : string :=
  "[" +:+ String.concat " " errors +:+ "]".

(** Code that reads the clock, asks the Go runtime for the visiting order of
    a map or talks to the network is a function of a world of type [W]. *)
Definition St (W A : Type) : Type := W → A * W.

Definition ret {W A} (a : A) : St W A := λ w, (a, w).

Definition bind {W A B} (m : St W A) (k : A → St W B) : St W B :=
  λ w, let '(a, w') := m w in k a w'.

Notation "'let*' x ':=' m 'in' k" := (bind m (λ x, k))
  (at level 10, x pattern, m at level 100, k at level 200, only parsing).

(** The Go runtime as the code uses it: [time.Now()], the order in which a
    [range] visits the keys of a map (each key once, in an order of the
    runtime's choosing), and the order in which the goroutines of a fan-out
    get to run. *)
Class Runtime (W : Type) := {
  timeNow : St W Time;
  rangeKeys : gset string → St W (list string);
  rangeKeys_visits : ∀ ks w, (rangeKeys ks w).1 ≡ₚ elements ks;
  goSchedule : list string → St W (list string);
  goSchedule_perm : ∀ ts w, (goSchedule ts w).1 ≡ₚ ts
}.

(** [pkg/types] *)
Record HistoricalPricePoint := mkPoint {
  Date : string;
  Open : float64;
  High : float64;
  Low : float64;
  Close : float64
}.

(** The dates of a series are in ascending order. *)
Fixpoint ascending (points : list HistoricalPricePoint) : bool :=
  match points with
  | p :: (q :: _) as rest => String.leb (Date p) (Date q) && ascending rest
  | _ => true
  end.

(** What a batch fetch returns: [(map[string]float64, error)]. *)
Abbreviation BatchReturn := (option (gmap string float64) * option string)%type.

(** What a run of a batch leaves in [results] and [errors] when the single
    fetches came back as [outs], in this order: the loop of the two batch
    functions with the fetches taken out. *)
Definition collectOutcomes (outs : list (string * result float64))
    (results : gmap string float64) (errors : list string)
    : gmap string float64 * list string :=
  foldl (λ '(results, errors) '(t, r),
           match r with
           | Err err => (results, (errors ++ [err])%list)
           | Ok price => (<[t := price]> results, errors)
           end)
        (results, errors) outs.

(** The error texts among the outcomes, in their order. *)
Definition failures (outs : list (string * result float64)) : list string :=
  omap (λ o, match o.2 with Err err => Some err | Ok _ => None end) outs.

(** ** internal/service/service.go *)

Module Service.

Definition priceMocks : gmap string float64 :=
  <["AAPL" := f150]> (<["MSFT" := f300]> (<["GOOGL" := f2800]> ∅)).

(** [interface PriceService], the method that the alert service calls. *)
Class PriceService (W : Type) := {
  FetchPrice : string → St W (result float64)
}.

Definition MockPriceFetcher (ticker : string) : result float64 :=
  match priceMocks !! ticker with
  | None => Err ("price not found for " +:+ ticker)
  | Some price => Ok price
  end.

(** The loop of [MockBatchPriceFetcher]: the [results] map and the
    [errors] slice after the tickers have been visited. *)
Definition MockBatchLoop (tickers : list string)
    : gmap string float64 * list string :=
  foldl (λ '(results, errors) ticker,
           match MockPriceFetcher ticker with
           | Err err => (results, (errors ++ [err])%list)
           | Ok price => (<[ticker := price]> results, errors)
           end)
        (∅, []) tickers.

Definition MockBatchPriceFetcher (tickers : list string) : BatchReturn :=
  let '(results, errors) := MockBatchLoop tickers in
  if bool_decide (size results = 0%nat) && bool_decide (0 < length errors)%nat
  then (None, Some ("failed to fetch prices for any ticker: "
                      +:+ fmt_errors errors))
  else (Some results, None).

(** [float64] arithmetic of the mock series: [basePrice + n], [basePrice - n]. *)
Definition of_int (n : Z) : float64 := binary_normalize 53 1024 n 0 false.
Definition fadd (a b : float64) : float64 := SFadd 53 1024 a b.
Definition fsub (a b : float64) : float64 := SFsub 53 1024 a b.

Definition MockPriceHistoryFetcher (ticker fromDate toDate : string)
    : result (list HistoricalPricePoint) :=
  match priceMocks !! ticker with
  | None => Err ("ticker not found: " +:+ ticker)
  | Some basePrice =>
      let up n := fadd basePrice (of_int n) in
      let dn n := fsub basePrice (of_int n) in
      Ok [ mkPoint "2024-01-01" (dn 5) (up 5) (dn 10) (dn 2);
           mkPoint "2024-01-02" (dn 2) (up 3) (dn 5) (up 1);
           mkPoint "2024-01-03" (up 1) (up 8) (dn 3) (up 5);
           mkPoint "2024-01-04" (up 5) (up 10) basePrice (up 3);
           mkPoint "2024-01-05" (up 3) (up 7) (up 1) (up 6) ]
  end.

(** [priceService], the mock implementation of the interface. *)
#[export] Instance priceService {W} : PriceService W :=
  {| FetchPrice ticker := ret (MockPriceFetcher ticker) |}.

End Service.

Import Service.

(** ** internal/service/alpha_vantage.go *)

(** An [interface{}] that [json.Unmarshal] has filled. *)
#[local] Unset Elimination Schemes.
Inductive JSON :=
| JNull
| JBool (b : bool)
| JNumber (f : float64)
| JString (s : string)
| JArray (items : list JSON)
| JObject (fields : gmap string JSON).
#[local] Set Elimination Schemes.

(** What [http.NewRequestWithContext], [httpClient.Do] and
    [io.ReadAll(resp.Body)] give for one GET. *)
Inductive HttpReply :=
| NewRequestFailed (err : string)
| DoFailed (err : string)
| Response (StatusCode : Z) (body : result string).

(** The upstream quote source and the decoders of the Go library that read
    its answers: [json.Unmarshal] into [AlphaVantageResponse] (what is kept is
    the field [GlobalQuote.Price]), [json.Unmarshal] into a
    [map[string]interface{}], and [fmt.Sscanf(v, "%f", &price)]. *)
Class Upstream (W : Type) := {
  httpGet : string → list (string * string) → St W HttpReply;
  UnmarshalQuote : string → result string;
  UnmarshalObject : string → result (gmap string JSON);
  Sscanf_f : string → option float64
}.

(** [l[i], l[j] = l[j], l[i]] *)
Definition swap {A} (i j : nat) (l : list A) : list A :=
  match l !! i, l !! j with
  | Some a, Some b => <[j := a]> (<[i := b]> l)
  | _, _ => l
  end.

Module AlphaVantage.

Record cacheEntry := mkEntry {
  price : float64;
  history : list HistoricalPricePoint;
  expiry : Time
}.

Record AlphaVantageService := mkService {
  apiKey : string;
  baseURL : string;
  cache : gmap string cacheEntry;
  cacheTTL : Z;
  maxCacheSize : Z
}.

Definition defaultMaxCacheSize : Z := 1000.

(** [s.cache = c] *)
Definition set_cache (c : gmap string cacheEntry) (s : AlphaVantageService)
    : AlphaVantageService :=
  {| apiKey := apiKey s; baseURL := baseURL s; cache := c;
     cacheTTL := cacheTTL s; maxCacheSize := maxCacheSize s |}.

(** [NewAlphaVantageService]; [key] is [os.Getenv("ALPHA_VANTAGE_API_KEY")].
    The cache lives for five minutes. *)
Definition NewAlphaVantageService (key : string) : AlphaVantageService :=
  {| apiKey := if bool_decide (key = "") then "demo" else key;
     baseURL := "https://www.alphavantage.co/query";
     cache := ∅;
     cacheTTL := 5 * 60 * 1000000000;
     maxCacheSize := defaultMaxCacheSize |}.

(** The local [struct { ticker string; expiry time.Time }] of [evictOldest]. *)
Record tickerExpiry := mkTE { te_ticker : string; te_expiry : Time }.

(** The inner loop of the sort, [for j := ...; j < len(entries); j++]:
    [n] is the number of rounds left. *)
Fixpoint sortInner (n i j : nat) (entries : list tickerExpiry)
    : list tickerExpiry :=
  match n with
  | O => entries
  | S n' =>
      let entries' :=
        match entries !! i, entries !! j with
        | Some a, Some b =>
            if After (te_expiry a) (te_expiry b) then swap i j entries
            else entries
        | _, _ => entries
        end in
      sortInner n' i (S j) entries'
  end.

(** The outer loop, [for i := ...; i < len(entries); i++]. *)
Fixpoint sortOuter (n i : nat) (entries : list tickerExpiry)
    : list tickerExpiry :=
  match n with
  | O => entries
  | S n' =>
      sortOuter n' (S i) (sortInner (length entries - S i) i (S i) entries)
  end.

Definition sortByExpiry (entries : list tickerExpiry) : list tickerExpiry :=
  sortOuter (length entries) 0 entries.

(** The sort once more, on the list itself instead of on indices: one round
    of the outer loop carries the entry of position [i] through the rest of
    the slice, exchanging it with every entry that expires before it, and
    leaves the one that remains at position [i]. These two functions are
    only used to reason about [sortInner] and [sortOuter]. *)
Fixpoint carryMin (x : tickerExpiry) (rest : list tickerExpiry)
    : tickerExpiry * list tickerExpiry :=
  match rest with
  | [] => (x, [])
  | y :: rest' =>
      if After (te_expiry x) (te_expiry y)
      then let (m, r) := carryMin y rest' in (m, x :: r)
      else let (m, r) := carryMin x rest' in (m, y :: r)
  end.

Fixpoint exchangeSort (n : nat) (l : list tickerExpiry) : list tickerExpiry :=
  match n, l with
  | S n', x :: rest => let (m, r) := carryMin x rest in m :: exchangeSort n' r
  | _, _ => l
  end.

(** [len(entries) / 10], at least one. *)
Definition numToRemove (len : nat) : nat :=
  let n := (len / 10)%nat in
  if (n <? 1)%nat then 1%nat else n.

(** The reversal at the end of [FetchPriceHistory],
    [for i, j := 0, len-1; i < j; i, j = i+1, j-1]: [n] bounds the number of
    rounds, [length l] is enough. *)
Fixpoint reverseLoop {A} (n i j : nat) (l : list A) : list A :=
  match n with
  | O => l
  | S n' => if (i <? j)%nat then reverseLoop n' (S i) (pred j) (swap i j l)
            else l
  end.

Definition reverseInPlace {A} (l : list A) : list A :=
  reverseLoop (length l) 0 (length l - 1) l.

(** [parsePrice]: the value and whether there was an error. *)
Definition parsePrice `{Upstream W} (value : option JSON) : float64 * bool :=
  match value with
  | Some (JString v) =>
      match Sscanf_f v with
      | Some price => (price, false)
      | None => (f0, true)
      end
  | Some (JNumber v) => (v, false)
  | _ => (f0, true)
  end.

Section Cache.
Context {W : Type} `{Runtime W}.

Definition getCachedHistory (key : string) (s : AlphaVantageService)
    : St W (list HistoricalPricePoint * bool) :=
  match cache s !! key with
  | None => ret ([], false)
  | Some entry =>
      let* now := timeNow in
      if After now (expiry entry) then ret ([], false)
      else ret (history entry, true)
  end.

Definition getCachedPrice (ticker : string) (s : AlphaVantageService)
    : St W (float64 * bool) :=
  match cache s !! ticker with
  | None => ret (f0, false)
  | Some entry =>
      let* now := timeNow in
      if After now (expiry entry) then ret (f0, false)
      else ret (price entry, true)
  end.

(** The body of the loop of [evictExpired] at the key [ticker]. *)
Definition evictExpiredAt (now : Time) (c : gmap string cacheEntry)
    (ticker : string) : gmap string cacheEntry :=
  match c !! ticker with
  | Some entry => if After now (expiry entry) then delete ticker c else c
  | None => c
  end.

Definition evictExpired (s : AlphaVantageService)
    : St W AlphaVantageService :=
  let* now := timeNow in
  let* order := rangeKeys (dom (cache s)) in
  ret (set_cache (foldl (evictExpiredAt now) (cache s) order) s).

(** The entries that [evictOldest] collects when [range] visits the keys
    in [order]. *)
Definition collectEntries (c : gmap string cacheEntry)
    (order : list string) : list tickerExpiry :=
  omap (λ ticker, (λ entry, mkTE ticker (expiry entry)) <$> c !! ticker)
       order.

(** [numToRemove] is at most [len(entries)], so [entries[i]] is in range
    for every [i] of the last loop. *)
Definition evictOldest (s : AlphaVantageService)
    : St W AlphaVantageService :=
  if bool_decide (size (cache s) = 0%nat) then ret s
  else
    let* order := rangeKeys (dom (cache s)) in
    let entries := sortByExpiry (collectEntries (cache s) order) in
    let victims := take (numToRemove (length entries)) entries in
    ret (set_cache
           (foldl (λ c e, delete (te_ticker e) c) (cache s) victims) s).

(** [setCachedHistory] and [setCachedPrice] have the same body but for
    the entry that is stored; [setCached] is that body. *)
Definition setCached (key : string) (p : float64)
    (h : list HistoricalPricePoint) (s : AlphaVantageService)
    : St W AlphaVantageService :=
  let* s := evictExpired s in
  let* s := (if bool_decide (maxCacheSize s ≤ Z.of_nat (size (cache s)))
             then evictOldest s else ret s) in
  let* now := timeNow in
  ret (set_cache
         (<[key := mkEntry p h (now + cacheTTL s)]> (cache s)) s).

Definition setCachedHistory (key : string)
    (history : list HistoricalPricePoint) (s : AlphaVantageService)
    : St W AlphaVantageService :=
  let* s := evictExpired s in
  let* s := (if bool_decide (maxCacheSize s ≤ Z.of_nat (size (cache s)))
             then evictOldest s else ret s) in
  let* now := timeNow in
  ret (set_cache
         (<[key := {| price := f0; history := history;
                      expiry := now + cacheTTL s |}]> (cache s)) s).

Definition setCachedPrice (ticker : string) (price : float64)
    (s : AlphaVantageService) : St W AlphaVantageService :=
  let* s := evictExpired s in
  let* s := (if bool_decide (maxCacheSize s ≤ Z.of_nat (size (cache s)))
             then evictOldest s else ret s) in
  let* now := timeNow in
  ret (set_cache
         (<[ticker := {| price := price; history := [];
                         expiry := now + cacheTTL s |}]> (cache s)) s).

Definition ClearCache (s : AlphaVantageService) : AlphaVantageService :=
  set_cache ∅ s.

(** What the sweep of [evictExpired] keeps when the clock shows [now]: the
    entries that [now] is not after. *)
Definition swept (now : Time) (c : gmap string cacheEntry)
    : gmap string cacheEntry :=
  filter (λ kv, now ≤ expiry kv.2) c.

(** [s.cacheTTL = d], as the tests of the package do. *)
Definition set_cacheTTL (d : Z) (s : AlphaVantageService)
    : AlphaVantageService :=
  {| apiKey := apiKey s; baseURL := baseURL s; cache := cache s;
     cacheTTL := d; maxCacheSize := maxCacheSize s |}.

(** The writes of the cache that [FetchPrice] and [FetchPriceHistory] make,
    and a sequence of them, one after the other. *)
Inductive CacheWrite :=
| WritePrice (ticker : string) (price : float64)
| WriteHistory (key : string) (history : list HistoricalPricePoint).

Definition write (cw : CacheWrite) (s : AlphaVantageService)
    : St W AlphaVantageService :=
  match cw with
  | WritePrice ticker price => setCachedPrice ticker price s
  | WriteHistory key history => setCachedHistory key history s
  end.


(** The services that the package can build: the constructor, and then any
    writes of the cache, at any time and under any order of [range]. *)
Inductive reachable : AlphaVantageService → Prop :=
| reach_new key : reachable (NewAlphaVantageService key)
| reach_setCachedPrice s ticker price w :
    reachable s → reachable (setCachedPrice ticker price s w).1
| reach_setCachedHistory s key history w :
    reachable s → reachable (setCachedHistory key history s w).1
| reach_ClearCache s : reachable s → reachable (ClearCache s)
| reach_set_cacheTTL s d : reachable s → reachable (set_cacheTTL d s).

End Cache.

Section Fetch.
Context {W : Type} `{Runtime W} `{Upstream W}.

(** The upstream part of [FetchPrice], from the request to the parsed
    price. *)
Definition fetchQuote (ticker : string) (s : AlphaVantageService)
    : St W (result float64) :=
  let* reply := httpGet (baseURL s)
                  [("function", "GLOBAL_QUOTE"); ("symbol", ticker);
                   ("apikey", apiKey s)] in
  match reply with
  | NewRequestFailed err => ret (Err ("failed to create request: " +:+ err))
  | DoFailed err => ret (Err ("failed to fetch price: " +:+ err))
  | Response code body =>
      if bool_decide (code ≠ 200) then
        ret (Err ("API returned status " +:+ pretty code +:+ ": " +:+
                  match body with Ok b => b | Err _ => "" end))
      else
        match body with
        | Err err => ret (Err ("failed to read response body: " +:+ err))
        | Ok body =>
            match UnmarshalQuote body with
            | Err err => ret (Err ("failed to parse response: " +:+ err))
            | Ok Price =>
                if bool_decide (Price = "") then
                  ret (Err ("invalid response: price field is empty for ticker "
                            +:+ ticker))
                else
                  match Sscanf_f Price with
                  | None => ret (Err "failed to parse price")
                  | Some price => ret (Ok price)
                  end
            end
        end
  end.

Definition FetchPrice (ticker : string) (s : AlphaVantageService)
    : St W (result float64 * AlphaVantageService) :=
  let* (price, found) := getCachedPrice ticker s in
  if found then ret (Ok price, s)
  else
    let* r := fetchQuote ticker s in
    match r with
    | Err err => ret (Err err, s)
    | Ok price =>
        let* s := setCachedPrice ticker price s in
        ret (Ok price, s)
    end.

(** The goroutines of [FetchPrices], one after the other in the order
    [sched]: each calls [FetchPrice] and then, under the mutex of the
    structure it writes, appends to [errors] or stores into [results]. *)
Fixpoint fetchEach (sched : list string) (s : AlphaVantageService)
    (results : gmap string float64) (errors : list string)
    : St W (gmap string float64 * list string * AlphaVantageService) :=
  match sched with
  | [] => ret (results, errors, s)
  | t :: sched' =>
      let* (r, s) := FetchPrice t s in
      match r with
      | Err err => fetchEach sched' s results (errors ++ [err])%list
      | Ok price => fetchEach sched' s (<[t := price]> results) errors
      end
  end.

(** The calls of [FetchPrice] that these goroutines make, each with what it
    returned. *)
Fixpoint fetchOutcomes (sched : list string) (s : AlphaVantageService)
    : St W (list (string * result float64) * AlphaVantageService) :=
  match sched with
  | [] => ret ([], s)
  | t :: sched' =>
      let* (r, s) := FetchPrice t s in
      let* (outs, s) := fetchOutcomes sched' s in
      ret ((t, r) :: outs, s)
  end.

(** [FetchPrices]: the goroutines run in an order that the runtime
    picks; [wg.Wait()] returns when all of them are done. *)
Definition FetchPrices (tickers : list string) (s : AlphaVantageService)
    : St W (BatchReturn * AlphaVantageService) :=
  let* sched := goSchedule tickers in
  let* (results, errors, s) := fetchEach sched s ∅ [] in
  if bool_decide (size results = 0%nat)
     && bool_decide (0 < length errors)%nat
  then ret ((None, Some ("failed to fetch prices for any ticker: "
                           +:+ fmt_errors errors)), s)
  else ret ((Some results, None), s).

(** The body of the loop over [timeSeries] in [FetchPriceHistory]. *)
Definition historyStep (fromDate toDate : string)
    (timeSeries : gmap string JSON)
    (historicalData : list HistoricalPricePoint) (date : string)
    : list HistoricalPricePoint :=
  match timeSeries !! date with
  | Some (JObject dataPoint) =>
      let open := (parsePrice (dataPoint !! "1. open")).1 in
      let high := (parsePrice (dataPoint !! "2. high")).1 in
      let low := (parsePrice (dataPoint !! "3. low")).1 in
      let close := (parsePrice (dataPoint !! "4. close")).1 in
      if bool_decide (fromDate ≠ "") && String.ltb date fromDate
      then historicalData
      else if bool_decide (toDate ≠ "") && String.ltb toDate date
      then historicalData
      else (historicalData ++ [mkPoint date open high low close])%list
  | _ => historicalData
  end.

Definition FetchPriceHistory (ticker fromDate toDate : string)
    (s : AlphaVantageService)
    : St W (result (list HistoricalPricePoint) * AlphaVantageService) :=
  let cacheKey :=
    "history_" +:+ ticker +:+ "_" +:+ fromDate +:+ "_" +:+ toDate in
  let* (cached, found) := getCachedHistory cacheKey s in
  if found then ret (Ok cached, s)
  else
    let* reply := httpGet (baseURL s)
                    [("function", "TIME_SERIES_DAILY"); ("symbol", ticker);
                     ("apikey", apiKey s); ("outputsize", "full")] in
    match reply with
    | NewRequestFailed err =>
        ret (Err ("failed to create request: " +:+ err), s)
    | DoFailed err => ret (Err ("failed to fetch history: " +:+ err), s)
    | Response code body =>
        if bool_decide (code ≠ 200) then
          ret (Err ("API returned status " +:+ pretty code +:+ ": " +:+
                    match body with Ok b => b | Err _ => "" end), s)
        else
          match body with
          | Err err =>
              ret (Err ("failed to read response body: " +:+ err), s)
          | Ok body =>
              match UnmarshalObject body with
              | Err err =>
                  ret (Err ("failed to parse response: " +:+ err), s)
              | Ok avResponse =>
                  match avResponse !! "Time Series (Daily)" with
                  | Some (JObject timeSeries) =>
                      let* order := rangeKeys (dom timeSeries) in
                      let historicalData :=
                        foldl (historyStep fromDate toDate timeSeries)
                              [] order in
                      let historicalData :=
                        reverseInPlace historicalData in
                      let* s := setCachedHistory cacheKey historicalData s in
                      ret (Ok historicalData, s)
                  | _ =>
                      ret (Err ("invalid response: time series data not found for ticker "
                                +:+ ticker), s)
                  end
              end
          end
    end.

End Fetch.

End AlphaVantage.

(** ** internal/service/alerts.go *)

Module Alerts.

(** [type AlertCondition string] *)
Abbreviation AlertCondition := string (only parsing).
Definition ConditionAbove : AlertCondition := "above".
Definition ConditionBelow : AlertCondition := "below".

Record Alert := mkAlert {
  ID : string;
  Ticker : string;
  Condition : AlertCondition;
  Threshold : float64;
  WebhookURL : string;
  Active : bool;
  CreatedAt : Time;
  TriggeredAt : option Time
}.

(** [fmt.Sprintf("%s-%s-%.2f", ticker, condition, threshold)] *)
Definition alertID (ticker : string) (condition : AlertCondition)
    (threshold : float64) : string :=
  ticker +:+ "-" +:+ condition +:+ "-" +:+ Sprintf_2f threshold.

(** [CreateAlert]: [now] is what [time.Now()] returns. The function gives
    the new alert and the registry after [s.alerts[alertID] = alert]; the
    log entry is left out, here and in [DeleteAlert]. *)
Definition CreateAlert (now : Time) (ticker : string)
    (condition : AlertCondition) (threshold : float64) (webhookURL : string)
    (alerts : gmap string Alert) : Alert * gmap string Alert :=
  let alertID := alertID ticker condition threshold in
  let alert := {| ID := alertID; Ticker := ticker; Condition := condition;
                  Threshold := threshold; WebhookURL := webhookURL;
                  Active := true; CreatedAt := now; TriggeredAt := None |} in
  (alert, <[alertID := alert]> alerts).

(** [GetAlert]: [inr] carries the error text. *)
Definition GetAlert (alertID : string) (alerts : gmap string Alert)
    : Alert + string :=
  match alerts !! alertID with
  | Some alert => inl alert
  | None => inr ("alert not found: " +:+ alertID)
  end.

(** [DeleteAlert]: the error, if any, and the registry afterwards. *)
Definition DeleteAlert (alertID : string) (alerts : gmap string Alert)
    : option string * gmap string Alert :=
  match alerts !! alertID with
  | None => (Some ("alert not found: " +:+ alertID), alerts)
  | Some _ => (None, delete alertID alerts)
  end.

(** The JSON body of the webhook. *)
Record WebhookPayload := mkPayload {
  alert_id : string;
  ticker : string;
  condition : AlertCondition;
  threshold : float64;
  current_price : float64;
  triggered_at : Time
}.

(** The webhook endpoint: the error of [http.NewRequest("POST", url, _)], if
    any, and [s.httpClient.Do(req)], which gives the status code of the
    response or a transport error. *)
Class Webhook (W : Type) := {
  NewRequest : string → option string;
  Do : string → WebhookPayload → St W (result Z)
}.

(** What a pass over the alerts does that can be seen from outside: the
    calls of [s.priceSvc.FetchPrice] (with the alert they are made for),
    the log entries and the POST requests that were sent. *)
Inductive Event :=
| Fetched (alertID ticker : string)
| LogFetchFailed (alertID ticker err : string)
| LogTriggered (alertID ticker : string) (price threshold : float64)
    (condition : AlertCondition)
| Posted (url : string) (payload : WebhookPayload)
| LogWebhookFailed (alertID err : string).

(** The [switch alert.Condition] of [CheckAlerts]. *)
Definition triggered (condition : AlertCondition) (price threshold : float64)
    : bool :=
  if bool_decide (condition = ConditionAbove) then gt price threshold
  else if bool_decide (condition = ConditionBelow) then lt price threshold
  else false.

(** [alert.TriggeredAt = &now; alert.Active = false] *)
Definition markTriggered (now : Time) (alert : Alert) : Alert :=
  {| ID := ID alert; Ticker := Ticker alert; Condition := Condition alert;
     Threshold := Threshold alert; WebhookURL := WebhookURL alert;
     Active := false; CreatedAt := CreatedAt alert;
     TriggeredAt := Some now |}.

Section Checker.
Context {W : Type} `{Runtime W} `{PriceService W} `{Webhook W}.

(** [json.Marshal] refuses a float that is not finite. *)
Definition sendWebhook (alert : Alert) (price : float64)
    : St W (option string * list Event) :=
  if bool_decide (WebhookURL alert = "") then ret (None, [])
  else
    let* now := timeNow in
    let payload :=
      {| alert_id := ID alert; ticker := Ticker alert;
         condition := Condition alert; threshold := Threshold alert;
         current_price := price; triggered_at := now |} in
    if negb (is_finite (Threshold alert) && is_finite price) then
      ret (Some "failed to marshal webhook payload", [])
    else
      match NewRequest (WebhookURL alert) with
      | Some err =>
          ret (Some ("failed to create webhook request: " +:+ err), [])
      | None =>
          let* r := Do (WebhookURL alert) payload in
          let sent := [Posted (WebhookURL alert) payload] in
          match r with
          | Err err => ret (Some ("failed to send webhook: " +:+ err), sent)
          | Ok StatusCode =>
              if (StatusCode <? 200) || (300 <=? StatusCode) then
                ret (Some ("webhook returned status "
                           +:+ pretty StatusCode), sent)
              else ret (None, sent)
          end
      end.

(** The body of the loop of [CheckAlerts] for one alert: the alert
    afterwards and what happened. *)
Definition checkAlert (alert : Alert) : St W (Alert * list Event) :=
  if negb (Active alert) then ret (alert, [])
  else
    let* r := FetchPrice (Ticker alert) in
    let fetched := Fetched (ID alert) (Ticker alert) in
    match r with
    | Err err =>
        ret (alert, [fetched; LogFetchFailed (ID alert) (Ticker alert) err])
    | Ok price =>
        if triggered (Condition alert) price (Threshold alert) then
          let* (err, sent) := sendWebhook alert price in
          let failed :=
            match err with
            | Some err => [LogWebhookFailed (ID alert) err]
            | None => []
            end in
          let* now := timeNow in
          ret (markTriggered now alert,
               ([fetched;
                 LogTriggered (ID alert) (Ticker alert) price
                   (Threshold alert) (Condition alert)]
                ++ sent ++ failed)%list)
        else ret (alert, [fetched])
    end.

(** The loop of [CheckAlerts] when [range] visits the keys in [order];
    the alerts are changed in place. *)
Fixpoint checkEach (order : list string) (alerts : gmap string Alert)
    : St W (gmap string Alert * list Event) :=
  match order with
  | [] => ret (alerts, [])
  | k :: order' =>
      match alerts !! k with
      | None => checkEach order' alerts
      | Some alert =>
          let* (alert', evs) := checkAlert alert in
          let* (alerts', evs') := checkEach order' (<[k := alert']> alerts) in
          ret (alerts', (evs ++ evs')%list)
      end
  end.

(** [CheckAlerts], which always returns a nil error. *)
Definition CheckAlerts (alerts : gmap string Alert)
    : St W (gmap string Alert * list Event) :=
  let* order := rangeKeys (dom alerts) in
  checkEach order alerts.

(** [StartAlertChecker]: one pass for each of the [ticks] ticks that fire
    before the context is done. *)
Fixpoint StartAlertChecker (ticks : nat) (alerts : gmap string Alert)
    : St W (gmap string Alert * list Event) :=
  match ticks with
  | O => ret (alerts, [])
  | S ticks' =>
      let* (alerts, evs) := CheckAlerts alerts in
      let* (alerts, evs') := StartAlertChecker ticks' alerts in
      ret (alerts, (evs ++ evs')%list)
  end.

End Checker.

(** *** Notions used to state the lifecycle

    What every registry that [CreateAlert], [DeleteAlert] and [CheckAlerts]
    can build satisfies: an alert is stored under its id, and an active alert
    has not been triggered. *)
Definition registry_ok (alerts : gmap string Alert) : Prop :=
  ∀ k a, alerts !! k = Some a →
         ID a = k ∧ (Active a = true → TriggeredAt a = None).

(** The one transition of an alert: [a'] is [a], or [a] was active and [a']
    is [a] marked as triggered at some instant. *)
Definition lifecycle (a a' : Alert) : Prop :=
  a' = a ∨ (Active a = true ∧ ∃ now, a' = markTriggered now a).

(** 1 if the alert went from active to not active, 0 otherwise. *)
Definition fired (a a' : Alert) : nat :=
  if Active a && negb (Active a') then 1%nat else 0%nat.

(** The alert that an event is about. *)
Definition eventAlert (e : Event) : string :=
  match e with
  | Fetched alertID _ => alertID
  | LogFetchFailed alertID _ _ => alertID
  | LogTriggered alertID _ _ _ _ => alertID
  | Posted _ payload => alert_id payload
  | LogWebhookFailed alertID _ => alertID
  end.

Definition isTrigger (e : Event) : bool :=
  match e with LogTriggered _ _ _ _ _ => true | _ => false end.

Definition isPost (e : Event) : bool :=
  match e with Posted _ _ => true | _ => false end.

(** How often the alert [k] was found triggered (which is how often
    [sendWebhook] was called for it), and how many POST requests were sent
    for it. *)
Fixpoint countIf {A} (p : A → bool) (l : list A) : nat :=
  match l with
  | [] => 0%nat
  | x :: l' => ((if p x then 1 else 0) + countIf p l')%nat
  end.

Definition triggers (k : string) (evs : list Event) : nat :=
  countIf (λ e, isTrigger e && bool_decide (eventAlert e = k)) evs.

Definition posts (k : string) (evs : list Event) : nat :=
  countIf (λ e, isPost e && bool_decide (eventAlert e = k)) evs.

(** What evaluation passes may do to a registry: [alerts'] has the alerts of
    [alerts], each after at most its one transition; the alert [k] was found
    triggered once if it made the transition and never otherwise, with at
    most one POST request; and an alert that was not active is not mentioned
    in any event. *)
Definition pass_summary (alerts alerts' : gmap string Alert)
    (evs : list Event) : Prop :=
  registry_ok alerts'
  ∧ dom alerts' = dom alerts
  ∧ Forall (λ e, eventAlert e ∈ dom alerts) evs
  ∧ ∀ k a, alerts !! k = Some a →
      ∃ a', alerts' !! k = Some a'
            ∧ lifecycle a a'
            ∧ triggers k evs = fired a a'
            ∧ (posts k evs ≤ triggers k evs)%nat
            ∧ (Active a = false → Forall (λ e, eventAlert e ≠ k) evs).

(** *** The rest of the registry

    [ListAlerts]: the alerts in the order in which [range] visits the map. *)
Section Registry.
Context {W : Type} `{Runtime W} `{PriceService W} `{Webhook W}.

Definition ListAlerts (alerts : gmap string Alert) : St W (list Alert) :=
  let* order := rangeKeys (dom alerts) in
  ret (omap (λ k, alerts !! k) order).

(** The calls that change the registry, as the transports and the periodic
    checker make them, and a sequence of such calls. *)
Inductive RegistryOp :=
| DoCreate (ticker : string) (condition : AlertCondition)
    (threshold : float64) (webhookURL : string)
| DoDelete (alertID : string)
| DoCheck.

Definition runOp (op : RegistryOp) (alerts : gmap string Alert)
    : St W (gmap string Alert) :=
  match op with
  | DoCreate ticker condition threshold webhookURL =>
      let* now := timeNow in
      ret (CreateAlert now ticker condition threshold webhookURL alerts).2
  | DoDelete alertID => ret (DeleteAlert alertID alerts).2
  | DoCheck => let* (alerts', _) := CheckAlerts alerts in ret alerts'
  end.

Fixpoint runOps (ops : list RegistryOp) (alerts : gmap string Alert)
    : St W (gmap string Alert) :=
  match ops with
  | [] => ret alerts
  | op :: ops' => let* alerts' := runOp op alerts in runOps ops' alerts'
  end.

End Registry.

(** A log entry [Alert triggered] is justified in a registry when the
    logged price meets the logged condition and threshold, and these, with
    the logged ticker, are the ones of the alert that the entry names. *)
Definition justified (alerts : gmap string Alert) (e : Event) : Prop :=
  match e with
  | LogTriggered alertID ticker price threshold condition =>
      triggered condition price threshold = true
      ∧ ∃ a, alerts !! alertID = Some a
             ∧ Ticker a = ticker ∧ Threshold a = threshold
             ∧ Condition a = condition
  | _ => True
  end.

(** What holds of every alert of a registry that was built by such calls:
    it is stored under its id, its id is the one of its definition, and it
    has a trigger time exactly when it is not active. *)
Definition registry_wf (alerts : gmap string Alert) : Prop :=
  ∀ k a, alerts !! k = Some a →
         ID a = k
         ∧ ID a = alertID (Ticker a) (Condition a) (Threshold a)
         ∧ (Active a = true ↔ TriggeredAt a = None).

End Alerts.

(** ** internal/config/config.go

    [os.Getenv] is a function [Getenv] from the name of a variable to its
    value, the empty string when the variable is not set. *)

Module Config.

Record Config := mkConfig {
  UseRealData : bool;
  AlphaVantageKey : string;
  JSONAddr : string;
  GRPCAddr : string
}.

Definition getEnvWithDefault (Getenv : string → string)
    (key defaultValue : string) : string :=
  let value := Getenv key in
  if bool_decide (value ≠ "") then value else defaultValue.

Definition LoadConfig (Getenv : string → string) : Config :=
  {| UseRealData := bool_decide (Getenv "USE_REAL_DATA" = "true");
     AlphaVantageKey :=
       getEnvWithDefault Getenv "ALPHA_VANTAGE_API_KEY" "demo";
     JSONAddr := getEnvWithDefault Getenv "JSON_ADDR" ":8080";
     GRPCAddr := getEnvWithDefault Getenv "GRPC_ADDR" ":8081" |}.

(** [Validate]: the error, [None] for [nil]. *)
Definition Validate (c : Config) : option string :=
  if UseRealData c && bool_decide (AlphaVantageKey c = "")
  then Some "ALPHA_VANTAGE_API_KEY is required when USE_REAL_DATA=true"
  else None.

End Config.

(** ** A small world to run the code in

    The clock stands still, [range] visits the keys in the order of
    [elements], goroutines run in the order they were started, the quote
    source knows the prices of [quotes] and the webhook endpoint answers
    [hook]. *)

Module Sim.

Import AlphaVantage Alerts.

Record World := mkWorld {
  clock : Time;
  quotes : gmap string float64;
  hook : result Z
}.

#[export] Instance runtime : Runtime World :=
  {| timeNow w := (clock w, w);
     rangeKeys ks w := (elements ks, w);
     rangeKeys_visits ks w := Permutation_refl (elements ks);
     goSchedule ts w := (ts, w);
     goSchedule_perm ts w := Permutation_refl ts |}.

(** The price service of the world: the price is in [quotes] or there is
    none. *)
Definition quoteService : PriceService World :=
  {| Service.FetchPrice t w :=
       (match quotes w !! t with
        | Some p => Ok p
        | None => Err ("price not found for " +:+ t)
        end, w) |}.

#[export] Instance webhook : Webhook World :=
  {| NewRequest url := None;
     Do url payload w := (hook w, w) |}.

(** Two days of a daily series, as the upstream sends them. *)
Definition day (close : string) : JSON :=
  JObject (<["1. open" := JString close]> (<["2. high" := JString close]>
          (<["3. low" := JString close]> (<["4. close" := JString close]> ∅)))).

Definition twoDays : gmap string JSON :=
  <["2024-01-01" := day "150.00"]> (<["2024-01-02" := day "300.00"]> ∅).

#[export] Instance upstream : Upstream World :=
  {| httpGet url params w :=
       (match quotes w !! (default "" (snd <$> params !! 1%nat)) with
        | Some _ => Response 200 (Ok (default "" (snd <$> params !! 1%nat)))
        | None => Response 404 (Ok "not found")
        end, w);
     UnmarshalQuote body := Ok (if bool_decide (body = "AAPL") then "150.00" else "");
     UnmarshalObject body := Ok {[ "Time Series (Daily)" := JObject twoDays ]};
     Sscanf_f v := if bool_decide (v = "150.00") then Some f150
                   else if bool_decide (v = "300.00") then Some f300
                   else None |}.

Definition world0 : World :=
  {| clock := 5; quotes := priceMocks; hook := Ok 200 |}.

(** An entry that is stored when the clock shows 5, with the five minutes
    of the constructor, expires at [5 + 300000000000]. *)
Definition atExpiry : World :=
  {| clock := 5 + 300000000000; quotes := priceMocks; hook := Ok 200 |}.

(** A service whose cache holds one price that expires at instant 5. *)
Definition oneEntry : AlphaVantageService :=
  set_cache {[ "AAPL" := mkEntry f150 [] 5 ]} (NewAlphaVantageService "").

(** A service with room for three entries that holds three. *)
Definition fullOfThree : AlphaVantageService :=
  {| apiKey := "demo"; baseURL := "https://www.alphavantage.co/query";
     cache := <["AAPL" := mkEntry f150 [] 10]>
                (<["MSFT" := mkEntry f300 [] 7]>
                   (<["GOOGL" := mkEntry f2800 [] 9]> ∅));
     cacheTTL := 100; maxCacheSize := 3 |}.

(** The world in which the webhook endpoint cannot be reached. *)
Definition hookDown : World :=
  {| clock := 5; quotes := priceMocks;
     hook := Err "connection refused" |}.

(** The world in which AAPL trades at [p]. *)
Definition priced (p : float64) : World :=
  {| clock := 5; quotes := {[ "AAPL" := p ]}; hook := Ok 200 |}.

(** An alert for AAPL above 100 with a webhook, created at instant 1, and
    the registry that holds it. *)
Definition aaplAbove100 : Alert * gmap string Alert :=
  CreateAlert 1 "AAPL" ConditionAbove f100 "http://hook" ∅.

End Sim.

Import AlphaVantage Alerts.

(** * Properties *)

Import Sim.

(** ** float64 comparisons *)

Lemma SFcompare_same (x : float64) :
  SFcompare x x = Some Eq ∨ SFcompare x x = None.
Proof.
  destruct x as [s|s| |s m e]; simpl; auto.
  - destruct s; auto.
  - rewrite Z.compare_refl.
    change (PosDef.Pos.compare_cont Eq m m) with (m ?= m)%positive.
    rewrite Pos.compare_refl. destruct s; auto.
Qed.

Lemma lt_irrefl (x : float64) : lt x x = false.
Proof.
  unfold lt, SFltb. destruct (SFcompare_same x) as [-> | ->]; reflexivity.
Qed.

Lemma gt_irrefl (x : float64) : gt x x = false.
Proof. apply lt_irrefl. Qed.

Lemma eqb_not_lt (x y : float64) : eqb x y = true → lt x y = false.
Proof.
  unfold eqb, lt, SFeqb, SFltb.
  destruct (SFcompare x y) as [[]|]; congruence.
Qed.

Lemma SFcompare_swap (x y : float64) :
  SFcompare x y = Some Eq → SFcompare y x = Some Eq.
Proof.
  destruct x as [sx|sx| |sx mx ex], y as [sy|sy| |sy my ey]; simpl;
    try (destruct sx; discriminate); try (destruct sy; discriminate);
    try done.
  - destruct sx, sy; try discriminate; done.
  - change (PosDef.Pos.compare_cont Eq mx my) with (mx ?= my)%positive.
    change (PosDef.Pos.compare_cont Eq my mx) with (my ?= mx)%positive.
    rewrite (Z.compare_antisym ex ey), (Pos.compare_antisym mx my).
    destruct sx, sy; try discriminate;
      destruct (ex ?= ey) eqn:He; simpl; try discriminate;
      destruct (mx ?= my)%positive eqn:Hm; simpl; try discriminate; done.
Qed.

Lemma eqb_not_gt (x y : float64) : eqb x y = true → gt x y = false.
Proof.
  unfold eqb, gt, SFeqb, SFltb. intros Heq.
  destruct (SFcompare x y) as [[]|] eqn:Hc; try discriminate.
  by rewrite (SFcompare_swap _ _ Hc).
Qed.

(** ** The trigger predicate *)

(** C4. The predicate that decides whether an alert fires is
    [(condition == above && price > threshold) ||
     (condition == below && price < threshold)]; both comparisons are strict,
    so a price that is the threshold itself, or that is equal to it as a
    float64 ([==]), fires neither an [above] nor a [below] alert, nor an
    alert with any other condition. *)
Theorem C4_trigger_is_strict (condition : AlertCondition)
    (price threshold : float64) :
  triggered condition price threshold
    = (bool_decide (condition = ConditionAbove) && gt price threshold)
      || (bool_decide (condition = ConditionBelow) && lt price threshold)
  ∧ triggered condition threshold threshold = false
  ∧ eqb price threshold && triggered condition price threshold = false.
Proof.
  unfold triggered. split; [|split].
  - repeat case_bool_decide; subst; try done.
    destruct (gt price threshold); done.
  - rewrite gt_irrefl, lt_irrefl. by repeat case_bool_decide.
  - destruct (eqb price threshold) eqn:Heq; [simpl | done].
    rewrite (eqb_not_lt _ _ Heq), (eqb_not_gt _ _ Heq).
    by repeat case_bool_decide.
Qed.

(** ** Creating alerts *)

Lemma CreateAlert_id now ticker condition threshold url
    (alerts : gmap string Alert) :
  ID (CreateAlert now ticker condition threshold url alerts).1
    = alertID ticker condition threshold.
Proof. reflexivity. Qed.

Lemma CreateAlert_lookup now ticker condition threshold url
    (alerts : gmap string Alert) :
  (CreateAlert now ticker condition threshold url alerts).2
    !! alertID ticker condition threshold
  = Some (CreateAlert now ticker condition threshold url alerts).1.
Proof. unfold CreateAlert; simpl. apply lookup_insert_eq. Qed.

Lemma CreateAlert_twice now1 now2 ticker c1 c2 t1 t2 url1 url2
    (alerts : gmap string Alert) :
  alertID ticker c1 t1 = alertID ticker c2 t2 →
  (CreateAlert now2 ticker c2 t2 url2
     (CreateAlert now1 ticker c1 t1 url1 alerts).2).2
  = (CreateAlert now2 ticker c2 t2 url2 alerts).2.
Proof.
  intros Hid. unfold CreateAlert; simpl. rewrite Hid.
  apply insert_insert_eq.
Qed.

Lemma insert_same_key_dom (alerts : gmap string Alert) k a b :
  dom (<[k := b]> (<[k := a]> alerts)) = dom (<[k := a]> alerts).
Proof. rewrite !dom_insert_L. by rewrite (assoc_L (∪)), (idemp_L (∪)). Qed.

Lemma insert_same_key_size (alerts : gmap string Alert) k a b :
  size (<[k := b]> (<[k := a]> alerts)) = size (<[k := a]> alerts).
Proof.
  rewrite <- !size_dom. f_equal. apply insert_same_key_dom.
Qed.

(** C8. The id of an alert is a function of (ticker, condition, threshold):
    two calls of [CreateAlert] with the same triple give the same id, and
    the record of the second call (with its own webhook URL and creation
    time, active again) replaces the record of the first one. The registry
    then has the keys it had after the first call, one of them this id, and
    is the registry that the second call alone would have left. *)
Theorem C8_create_same_triple_overwrites (now1 now2 : Time)
    (ticker : string) (condition : AlertCondition) (threshold : float64)
    (url1 url2 : string) (alerts : gmap string Alert) :
  let first := CreateAlert now1 ticker condition threshold url1 alerts in
  let second := CreateAlert now2 ticker condition threshold url2 first.2 in
  ID first.1 = alertID ticker condition threshold
  ∧ ID second.1 = ID first.1
  ∧ first.2 !! ID first.1 = Some first.1
  ∧ second.2 !! ID first.1 = Some second.1
  ∧ WebhookURL second.1 = url2
  ∧ CreatedAt second.1 = now2
  ∧ Active second.1 = true
  ∧ dom second.2 = dom first.2
  ∧ size second.2 = size first.2
  ∧ second.2 = (CreateAlert now2 ticker condition threshold url2 alerts).2.
Proof.
  intros first second.
  repeat split; try reflexivity.
  - apply CreateAlert_lookup.
  - apply CreateAlert_lookup.
  - apply insert_same_key_dom.
  - apply insert_same_key_size.
  - by apply CreateAlert_twice.
Qed.

(** C10. The threshold enters the id with two decimals only. Two thresholds
    that print alike under [%.2f] give, for the same ticker and condition, the
    same id, and the alert that is created second replaces the first one in
    the registry, which keeps one record for the two definitions. The
    doubles nearest to 100.001 and 100.004 are such a pair. *)
Theorem C10_close_thresholds_share_an_id (now1 now2 : Time)
    (ticker : string) (condition : AlertCondition) (t1 t2 : float64)
    (url1 url2 : string) (alerts : gmap string Alert) :
  Sprintf_2f t1 = Sprintf_2f t2 →
  let first := CreateAlert now1 ticker condition t1 url1 alerts in
  let second := CreateAlert now2 ticker condition t2 url2 first.2 in
  ID second.1 = ID first.1
  ∧ first.2 !! ID first.1 = Some first.1
  ∧ second.2 !! ID first.1 = Some second.1
  ∧ Threshold second.1 = t2
  ∧ size second.2 = size first.2
  ∧ second.2 = (CreateAlert now2 ticker condition t2 url2 alerts).2.
Proof.
  intros Hfmt first second.
  assert (Hid : alertID ticker condition t1 = alertID ticker condition t2)
    by (unfold alertID; by rewrite Hfmt).
  repeat split.
  - simpl. by rewrite Hid.
  - apply CreateAlert_lookup.
  - subst first second. simpl. rewrite Hid. apply lookup_insert_eq.
  - subst first second. simpl. rewrite Hid. apply insert_same_key_size.
  - by apply CreateAlert_twice.
Qed.

(** The pair of the claim: 100.001 and 100.004 are different doubles, both
    print as [100.00], and the alert for 100.004 takes the place of the alert
    for 100.001. *)
Lemma C10_witness_100_001_and_100_004 :
  f100_001 ≠ f100_004
  ∧ lt f100_001 f100_004 = true
  ∧ Sprintf_2f f100_001 = "100.00"
  ∧ Sprintf_2f f100_004 = "100.00"
  ∧ let first := CreateAlert 1 "AAPL" ConditionAbove f100_001 "http://a" ∅ in
    let second :=
      CreateAlert 2 "AAPL" ConditionAbove f100_004 "http://b" first.2 in
    ID second.1 = ID first.1
    ∧ first.2 !! ID first.1 = Some first.1
    ∧ second.2 !! ID first.1 = Some second.1
    ∧ Threshold second.1 = f100_004
    ∧ size second.2 = size first.2
    ∧ second.2
      = (CreateAlert 2 "AAPL" ConditionAbove f100_004 "http://b" ∅).2.
Proof.
  split; [discriminate|].
  split; [reflexivity|].
  split; [reflexivity|].
  split; [reflexivity|].
  apply (C10_close_thresholds_share_an_id 1 2 "AAPL" ConditionAbove
           f100_001 f100_004 "http://a" "http://b" ∅).
  reflexivity.
Defined.

(** ** Reading the cache *)

Section CacheReads.
Context {W : Type} `{Runtime W}.

Lemma After_false_iff (now t : Time) : After now t = false ↔ now ≤ t.
Proof. unfold After. rewrite Z.ltb_ge. done. Qed.

Lemma After_true_iff (now t : Time) : After now t = true ↔ t < now.
Proof. unfold After. apply Z.ltb_lt. Qed.

Lemma getCachedPrice_eq (key : string) (s : AlphaVantageService) (w : W) :
  (getCachedPrice key s w).1
  = match cache s !! key with
    | Some entry =>
        if bool_decide ((timeNow w).1 ≤ expiry entry) then (price entry, true)
        else (f0, false)
    | None => (f0, false)
    end.
Proof.
  unfold getCachedPrice. destruct (cache s !! key) as [entry|]; [|done].
  unfold bind. destruct (timeNow w) as [now w']. simpl.
  destruct (After now (expiry entry)) eqn:Ha.
  - apply After_true_iff in Ha. rewrite bool_decide_eq_false_2; [done | lia].
  - apply After_false_iff in Ha. by rewrite bool_decide_eq_true_2.
Qed.

Lemma getCachedHistory_eq (key : string) (s : AlphaVantageService) (w : W) :
  (getCachedHistory key s w).1
  = match cache s !! key with
    | Some entry =>
        if bool_decide ((timeNow w).1 ≤ expiry entry)
        then (history entry, true)
        else ([], false)
    | None => ([], false)
    end.
Proof.
  unfold getCachedHistory. destruct (cache s !! key) as [entry|]; [|done].
  unfold bind. destruct (timeNow w) as [now w']. simpl.
  destruct (After now (expiry entry)) eqn:Ha.
  - apply After_true_iff in Ha. rewrite bool_decide_eq_false_2; [done | lia].
  - apply After_false_iff in Ha. by rewrite bool_decide_eq_true_2.
Qed.

(** C6, as the code has it. A read of the cache finds a value exactly when
    the key has an entry and the clock is not past the expiry of the entry:
    [now <= expiry]. A key that was never stored is absent, and so is a key
    whose entry has expired ([expiry < now]) though the entry is still in the
    map; at the expiry instant itself ([now = expiry]) the value is still
    read. *)
Theorem C6_read_until_expiry_inclusive (key : string)
    (s : AlphaVantageService) (w : W) :
  let now := (timeNow w).1 in
  let readPrice := (getCachedPrice key s w).1 in
  let readHistory := (getCachedHistory key s w).1 in
  (readPrice.2 = true
     ↔ ∃ entry, cache s !! key = Some entry ∧ now ≤ expiry entry)
  ∧ (readHistory.2 = true
     ↔ ∃ entry, cache s !! key = Some entry ∧ now ≤ expiry entry)
  ∧ (∀ entry, cache s !! key = Some entry → now ≤ expiry entry →
       readPrice = (price entry, true)
       ∧ readHistory = (history entry, true))
  ∧ (∀ entry, cache s !! key = Some entry → expiry entry < now →
       readPrice = (f0, false) ∧ readHistory = ([], false))
  ∧ (cache s !! key = None →
       readPrice = (f0, false) ∧ readHistory = ([], false)).
Proof.
  intros now readPrice readHistory. subst readPrice readHistory.
  rewrite getCachedPrice_eq, getCachedHistory_eq. fold now.
  destruct (cache s !! key) as [entry|] eqn:Hk.
  - destruct (bool_decide (now ≤ expiry entry)) eqn:Hd.
    + apply bool_decide_eq_true in Hd. simpl. split_and!.
      * split; [intros _; eauto | done].
      * split; [intros _; eauto | done].
      * by intros e' [= <-] _.
      * intros e' [= <-] ?. lia.
      * intros [=].
    + apply bool_decide_eq_false in Hd. simpl. split_and!.
      * split; [done | intros (e' & [= <-] & ?); lia].
      * split; [done | intros (e' & [= <-] & ?); lia].
      * intros e' [= <-] ?. lia.
      * by intros e' [= <-] _.
      * intros [=].
  - simpl. split_and!.
    + split; [done | by intros (e' & [=] & _)].
    + split; [done | by intros (e' & [=] & _)].
    + intros e' [=].
    + intros e' [=].
    + done.
Qed.

End CacheReads.

(** C6, as the spec has it, fails at the expiry instant: a price that is read
    when the clock shows exactly the expiry of its entry is still found. *)
Lemma C6_counterexample_read_at_expiry :
  let s := (setCachedPrice "AAPL" f150 (NewAlphaVantageService "")
              Sim.world0).1 in
  cache s !! "AAPL" = Some (mkEntry f150 [] (5 + 300000000000))
  ∧ (timeNow atExpiry).1 = 5 + 300000000000
  ∧ (getCachedPrice "AAPL" s atExpiry).1 = (f150, true).
Proof. vm_compute. repeat split; reflexivity. Qed.

(** ** The batch fetch *)

Lemma collectOutcomes_cons o outs (results : gmap string float64) errors :
  collectOutcomes (o :: outs) results errors
  = match o.2 with
    | Err err => collectOutcomes outs results (errors ++ [err])
    | Ok price => collectOutcomes outs (<[o.1 := price]> results) errors
    end.
Proof. destruct o as [t [price|err]]; reflexivity. Qed.

Lemma collectOutcomes_errors outs (results : gmap string float64) errors :
  (collectOutcomes outs results errors).2 = errors ++ failures outs.
Proof.
  revert results errors. induction outs as [|[t r] outs IH]; intros results errors.
  - simpl. by rewrite app_nil_r.
  - rewrite collectOutcomes_cons. destruct r as [price|err]; simpl.
    + by rewrite IH.
    + rewrite IH. unfold failures. simpl. by rewrite <- app_assoc.
Qed.

Lemma collectOutcomes_lookup outs (results : gmap string float64) errors t p :
  (collectOutcomes outs results errors).1 !! t = Some p →
  results !! t = Some p ∨ (t, Ok p) ∈ outs.
Proof.
  revert results errors. induction outs as [|[t' r] outs IH]; intros results errors.
  - simpl. auto.
  - rewrite collectOutcomes_cons. destruct r as [price|err]; simpl; intros Hl.
    + destruct (IH _ _ Hl) as [Hin | Hin].
      * destruct (decide (t' = t)) as [-> | Hne].
        -- rewrite lookup_insert_eq in Hin. injection Hin as ->.
           right. apply list_elem_of_here.
        -- rewrite lookup_insert_ne in Hin by done. by left.
      * right. by apply list_elem_of_further.
    + destruct (IH _ _ Hl) as [Hin | Hin]; [by left|].
      right. by apply list_elem_of_further.
Qed.

Lemma collectOutcomes_resolved outs (results : gmap string float64) errors t :
  is_Some (results !! t) ∨ (∃ p, (t, Ok p) ∈ outs) →
  is_Some ((collectOutcomes outs results errors).1 !! t).
Proof.
  revert results errors. induction outs as [|[t' r] outs IH]; intros results errors.
  - simpl. intros [Hs | [p Hin]]; [done | by apply elem_of_nil in Hin].
  - rewrite collectOutcomes_cons. intros [Hs | [p Hin]].
    + destruct r as [price|err]; simpl; apply IH; left; [|done].
      destruct (decide (t' = t)) as [-> | Hne].
      * rewrite lookup_insert_eq. eauto.
      * by rewrite lookup_insert_ne.
    + apply elem_of_cons in Hin as [[= <- <-] | Hin].
      * simpl. apply IH. left. rewrite lookup_insert_eq. eauto.
      * destruct r as [price|err]; simpl; apply IH; right; eauto.
Qed.

Lemma failures_nil_iff outs :
  failures outs = [] ↔ ∀ o, o ∈ outs → is_ok o.2 = true.
Proof.
  induction outs as [|[t r] outs IH].
  - split; [intros _ o Ho; by apply elem_of_nil in Ho | done].
  - unfold failures in *. destruct r as [price|err]; simpl.
    + rewrite IH. split.
      * intros Hall o [-> | Ho]%elem_of_cons; [done | by apply Hall].
      * intros Hall o Ho. apply Hall. by apply list_elem_of_further.
    + split; [done|]. intros Hall.
      specialize (Hall (t, Err err) (list_elem_of_here _ _)). done.
Qed.

(** The verdict of a batch: the condition [len(results) == 0 &&
    len(errors) > 0] holds when there was a fetch and every fetch failed. *)
Lemma batch_verdict outs :
  let run := collectOutcomes outs ∅ [] in
  bool_decide (size run.1 = 0%nat) && bool_decide (0 < length run.2)%nat = true
  ↔ outs ≠ [] ∧ ∀ o, o ∈ outs → is_ok o.2 = false.
Proof.
  intros run. rewrite andb_true_iff, !bool_decide_eq_true.
  subst run. rewrite collectOutcomes_errors. simpl. split.
  - intros [Hsize Hlen]. apply map_size_empty_iff in Hsize. split.
    + intros ->. simpl in Hlen. lia.
    + intros [t [p|err]] Ho; [|done]. exfalso.
      destruct (collectOutcomes_resolved outs ∅ [] t) as [q Hq]; [eauto|].
      rewrite Hsize, lookup_empty in Hq. done.
  - intros [Hne Hall]. split.
    + apply map_size_empty_iff, map_eq. intros t. rewrite lookup_empty.
      destruct (_ !! t) as [p|] eqn:Hl; [exfalso | done].
      apply collectOutcomes_lookup in Hl as [Hl | Hin].
      * by rewrite lookup_empty in Hl.
      * by specialize (Hall _ Hin).
    + destruct outs as [|[t r] outs]; [done|].
      specialize (Hall (t, r) (list_elem_of_here _ _)).
      destruct r as [p|err]; [done|]. unfold failures. simpl. lia.
Qed.

Lemma MockBatchLoop_collect (tickers : list string) :
  MockBatchLoop tickers
  = collectOutcomes ((λ t, (t, MockPriceFetcher t)) <$> tickers) ∅ [].
Proof.
  unfold MockBatchLoop, collectOutcomes.
  generalize (∅ : gmap string float64, [] : list string).
  induction tickers as [|t tickers IH]; intros acc; [done|].
  simpl. rewrite <- IH. f_equal. destruct acc as [results errors].
  by destruct (MockPriceFetcher t).
Qed.

Lemma mock_outcome_elem (tickers : list string) t r :
  (t, r) ∈ (λ t, (t, MockPriceFetcher t)) <$> tickers
  ↔ t ∈ tickers ∧ r = MockPriceFetcher t.
Proof.
  rewrite list_elem_of_fmap. split.
  - intros (t' & [= -> ->] & Hin). done.
  - intros [Hin ->]. eauto.
Qed.

Ltac case_verdict :=
  match goal with |- context [if ?b then _ else _] => destruct b end.

Section BatchFetch.
Context {W : Type} `{Runtime W} `{Upstream W}.

Lemma fetchEach_outcomes sched s (results : gmap string float64) errors (w : W) :
  fetchEach sched s results errors w
  = let run := fetchOutcomes sched s w in
    let got := collectOutcomes run.1.1 results errors in
    ((got.1, got.2, run.1.2), run.2).
Proof.
  revert s results errors w.
  induction sched as [|t sched IH]; intros s results errors w; [done|].
  simpl. unfold bind.
  destruct (AlphaVantage.FetchPrice t s w) as [[r s'] w'].
  destruct r as [price|err]; rewrite IH;
    destruct (fetchOutcomes sched s' w') as [[outs s''] w''];
    cbn [fst snd ret]; by rewrite collectOutcomes_cons.
Qed.

Lemma fetchOutcomes_tickers sched s (w : W) :
  (fetchOutcomes sched s w).1.1.*1 = sched.
Proof.
  revert s w. induction sched as [|t sched IH]; intros s w; [done|].
  simpl. unfold bind.
  destruct (AlphaVantage.FetchPrice t s w) as [[r s'] w'].
  specialize (IH s' w').
  destruct (fetchOutcomes sched s' w') as [[outs s''] w'']. simpl in *.
  f_equal. exact IH.
Qed.

(** C1, as the code has it. A batch returns an error exactly when there was
    at least one fetch and every fetch failed, and then it returns no map.
    In every other case it returns a nil error and the map of the tickers
    that resolved: the errors of the tickers that failed were recorded during
    the run but are not part of what is returned. Every ticker of the request
    is fetched, whatever happened to the ones before it.

    The first three parts are [MockBatchPriceFetcher]; the others are
    [AlphaVantageService.FetchPrices], where [outs] are the calls of
    [FetchPrice] that the goroutines made. *)
Theorem C1_batch_fails_only_if_all_fail (tickers : list string)
    (s : AlphaVantageService) (w : W) :
  let mock := MockBatchPriceFetcher tickers in
  let sched := goSchedule tickers w in
  let outs := (fetchOutcomes sched.1 s sched.2).1.1 in
  let batch := (AlphaVantage.FetchPrices tickers s w).1.1 in
  (mock.2 ≠ None
     ↔ tickers ≠ [] ∧ ∀ t, t ∈ tickers → is_ok (MockPriceFetcher t) = false)
  ∧ (mock.2 ≠ None → mock.1 = None)
  ∧ (mock.2 = None →
       ∃ m, mock = (Some m, None)
            ∧ ∀ t p, m !! t = Some p
                     ↔ t ∈ tickers ∧ MockPriceFetcher t = Ok p)
  ∧ outs.*1 ≡ₚ tickers
  ∧ (batch.2 ≠ None ↔ tickers ≠ [] ∧ ∀ o, o ∈ outs → is_ok o.2 = false)
  ∧ (batch.2 ≠ None → batch.1 = None)
  ∧ (batch.2 = None →
       ∃ m, batch = (Some m, None)
            ∧ (∀ t p, m !! t = Some p → (t, Ok p) ∈ outs)
            ∧ (∀ t p, (t, Ok p) ∈ outs → is_Some (m !! t))).
Proof.
  intros mock sched outs batch.
  (* the mock *)
  assert (Hmock : mock =
    let run := collectOutcomes ((λ t, (t, MockPriceFetcher t)) <$> tickers) ∅ [] in
    if bool_decide (size run.1 = 0%nat) && bool_decide (0 < length run.2)%nat
    then (None, Some ("failed to fetch prices for any ticker: "
                        +:+ fmt_errors run.2))
    else (Some run.1, None)).
  { subst mock. unfold MockBatchPriceFetcher. rewrite MockBatchLoop_collect.
    by destruct (collectOutcomes _ _ _). }
  pose proof (batch_verdict ((λ t, (t, MockPriceFetcher t)) <$> tickers)) as Hv.
  simpl in Hv, Hmock.
  assert (Hall : (∀ o, o ∈ (λ t, (t, MockPriceFetcher t)) <$> tickers
                       → is_ok o.2 = false)
                 ↔ ∀ t, t ∈ tickers → is_ok (MockPriceFetcher t) = false).
  { split.
    - intros Ho t Ht. apply (Ho (t, MockPriceFetcher t)).
      by apply mock_outcome_elem.
    - intros Ht [t r] [Hin ->]%mock_outcome_elem. by apply Ht. }
  assert (Hne : (λ t, (t, MockPriceFetcher t)) <$> tickers ≠ [] ↔ tickers ≠ []).
  { split; intros Hne Heq; apply Hne; [by rewrite Heq | by apply fmap_nil_inv in Heq]. }
  rewrite Hall, Hne in Hv. clear Hall Hne.
  (* the real service *)
  assert (Hbatch : batch =
    let run := collectOutcomes outs ∅ [] in
    if bool_decide (size run.1 = 0%nat) && bool_decide (0 < length run.2)%nat
    then (None, Some ("failed to fetch prices for any ticker: "
                        +:+ fmt_errors run.2))
    else (Some run.1, None)).
  { subst batch outs sched. unfold AlphaVantage.FetchPrices, bind.
    destruct (goSchedule tickers w) as [sc w1]. simpl.
    rewrite fetchEach_outcomes. simpl.
    case_verdict; reflexivity. }
  pose proof (batch_verdict outs) as Hw. simpl in Hw, Hbatch.
  assert (Hperm : outs.*1 ≡ₚ tickers).
  { subst outs. rewrite fetchOutcomes_tickers. apply goSchedule_perm. }
  assert (Hnil : outs ≠ [] ↔ tickers ≠ []).
  { split; intros Hne Heq; apply Hne.
    - rewrite Heq in Hperm. apply Permutation_nil_r in Hperm.
      by apply fmap_nil_inv in Hperm.
    - rewrite Heq in Hperm. simpl in Hperm. by apply Permutation_nil_l in Hperm. }
  rewrite Hnil in Hw. clear Hnil.
  rewrite Hmock, Hbatch. clear Hmock Hbatch.
  split_and!.
  - rewrite <- Hv. case_verdict; simpl; split; done.
  - by case_verdict.
  - case_verdict; [done|]. intros _. eexists; split; [done|].
    intros t p. simpl. split.
    + intros [Hl | Hin]%collectOutcomes_lookup; [by rewrite lookup_empty in Hl|].
      apply mock_outcome_elem in Hin as [? ->]. done.
    + intros [Hin Hp].
      destruct (collectOutcomes_resolved
                  ((λ t, (t, MockPriceFetcher t)) <$> tickers) ∅ [] t)
        as [q Hq].
      { right. exists p. apply mock_outcome_elem. done. }
      rewrite Hq. f_equal.
      apply collectOutcomes_lookup in Hq as [Hq | Hq];
        [by rewrite lookup_empty in Hq|].
      apply mock_outcome_elem in Hq as [_ Hq]. congruence.
  - done.
  - rewrite <- Hw. case_verdict; simpl; split; done.
  - by case_verdict.
  - case_verdict; [done|]. intros _. eexists; split; [done|]. split.
    + intros t p [Hl | Hin]%collectOutcomes_lookup;
        [by rewrite lookup_empty in Hl | done].
    + intros t p Hin. apply collectOutcomes_resolved. eauto.
Qed.

End BatchFetch.

(** C1, as the spec has it, fails on a partial success: for AAPL and an
    unknown ticker the run records one error, and what is returned is the
    map with AAPL and a nil error, the same as for AAPL alone. *)
Lemma C1_counterexample_errors_are_dropped :
  (MockBatchLoop ["AAPL"; "INVALID"]).2 = ["price not found for INVALID"]
  ∧ MockBatchPriceFetcher ["AAPL"; "INVALID"] = (Some {[ "AAPL" := f150 ]}, None)
  ∧ MockBatchPriceFetcher ["AAPL"; "INVALID"] = MockBatchPriceFetcher ["AAPL"].
Proof. vm_compute. split_and!; reflexivity. Qed.

(** ** The lifecycle of an alert *)

Lemma registry_ok_empty : registry_ok ∅.
Proof. intros k a Hk. by rewrite lookup_empty in Hk. Qed.

Lemma registry_ok_insert (alerts : gmap string Alert) k a :
  registry_ok alerts → ID a = k → (Active a = true → TriggeredAt a = None) →
  registry_ok (<[k := a]> alerts).
Proof.
  intros Hok Hid Hact k' a' Hl.
  destruct (decide (k = k')) as [<- | Hne].
  - rewrite lookup_insert_eq in Hl. by injection Hl as <-.
  - rewrite lookup_insert_ne in Hl by done. by apply Hok.
Qed.

Lemma registry_ok_CreateAlert now ticker condition threshold url
    (alerts : gmap string Alert) :
  registry_ok alerts →
  registry_ok (CreateAlert now ticker condition threshold url alerts).2.
Proof. intros Hok. by apply registry_ok_insert. Qed.

Lemma registry_ok_DeleteAlert alertID (alerts : gmap string Alert) :
  registry_ok alerts → registry_ok (DeleteAlert alertID alerts).2.
Proof.
  intros Hok. unfold DeleteAlert.
  destruct (alerts !! alertID) as [found|]; [|done]. simpl.
  intros k a [_ Hl]%lookup_delete_Some. by apply Hok.
Qed.

Lemma lifecycle_refl a : lifecycle a a.
Proof. by left. Qed.

Lemma lifecycle_inactive a a' : Active a = false → lifecycle a a' → a' = a.
Proof. intros Hi [-> | [Ha _]]; [done | congruence]. Qed.

Lemma lifecycle_trans a b c : lifecycle a b → lifecycle b c → lifecycle a c.
Proof.
  intros [-> | [Ha [now ->]]] Hbc; [done|].
  apply lifecycle_inactive in Hbc as ->; [|done].
  right. eauto.
Qed.

Lemma fired_refl a : fired a a = 0%nat.
Proof. unfold fired. by destruct (Active a). Qed.

Lemma fired_trans a b c :
  lifecycle a b → lifecycle b c → fired a c = (fired a b + fired b c)%nat.
Proof.
  intros [-> | [Ha [now ->]]] Hbc; [by rewrite fired_refl|].
  apply lifecycle_inactive in Hbc as ->; [|done].
  unfold fired. simpl. by rewrite Ha.
Qed.

Lemma fired_le_1 a a' : (fired a a' ≤ 1)%nat.
Proof. unfold fired. destruct (_ && _); lia. Qed.

Lemma lifecycle_ok a a' k :
  ID a = k → (Active a = true → TriggeredAt a = None) → lifecycle a a' →
  ID a' = k ∧ (Active a' = true → TriggeredAt a' = None).
Proof. intros Hid Hact [-> | [Ha [now ->]]]; [done|]. by split. Qed.

Lemma countIf_app {A} (p : A → bool) (l l' : list A) :
  countIf p (l ++ l') = (countIf p l + countIf p l')%nat.
Proof. induction l as [|x l IH]; simpl; [done | rewrite IH; lia]. Qed.

Lemma triggers_app k evs evs' :
  triggers k (evs ++ evs') = (triggers k evs + triggers k evs')%nat.
Proof. apply countIf_app. Qed.

Lemma posts_app k evs evs' :
  posts k (evs ++ evs') = (posts k evs + posts k evs')%nat.
Proof. apply countIf_app. Qed.

Lemma triggers_other k evs :
  Forall (λ e, eventAlert e ≠ k) evs → triggers k evs = 0%nat.
Proof.
  intros Hall. unfold triggers.
  induction Hall as [|e evs He _ IH]; [done|]. simpl.
  rewrite bool_decide_eq_false_2 by done. by rewrite andb_false_r.
Qed.

Lemma posts_other k evs :
  Forall (λ e, eventAlert e ≠ k) evs → posts k evs = 0%nat.
Proof.
  intros Hall. unfold posts.
  induction Hall as [|e evs He _ IH]; [done|]. simpl.
  rewrite bool_decide_eq_false_2 by done. by rewrite andb_false_r.
Qed.

Section Lifecycle.
Context {W : Type} `{Runtime W} `{PriceService W} `{Webhook W}.

Lemma sendWebhook_events (alert : Alert) (price : float64) (w : W) :
  let sent := (sendWebhook alert price w).1.2 in
  sent = [] ∨ ∃ payload, sent = [Posted (WebhookURL alert) payload]
                         ∧ alert_id payload = ID alert.
Proof.
  unfold sendWebhook. case_bool_decide; [by left|].
  unfold bind. destruct (timeNow w) as [now w1].
  destruct (negb _); [by left|].
  destruct (NewRequest _); [by left|].
  destruct (Do _ _ w1) as [[code|err] w2]; simpl.
  - destruct (_ || _); simpl; right; eauto.
  - right; eauto.
Qed.

Lemma checkAlert_inactive (alert : Alert) (w : W) :
  Active alert = false → checkAlert alert w = ((alert, []), w).
Proof. intros Hi. unfold checkAlert. by rewrite Hi. Qed.

(** What one round of the loop does to its alert. *)
Lemma checkAlert_step (alert : Alert) (w : W) :
  let r := (checkAlert alert w).1 in
  lifecycle alert r.1
  ∧ Forall (λ e, eventAlert e = ID alert) r.2
  ∧ triggers (ID alert) r.2 = fired alert r.1
  ∧ (posts (ID alert) r.2 ≤ triggers (ID alert) r.2)%nat
  ∧ (Active alert = false → r.2 = []).
Proof.
  unfold checkAlert. destruct (Active alert) eqn:Ha; simpl.
  2:{ split_and!; [by left | done | by rewrite fired_refl | done | done]. }
  unfold bind. destruct (Service.FetchPrice (Ticker alert) w) as [[price|err] w1].
  - destruct (triggered _ _ _).
    + pose proof (sendWebhook_events alert price w1) as Hsent.
      destruct (sendWebhook alert price w1) as [[err sent] w2].
      destruct (timeNow w2) as [now w3]. simpl in *.
      assert (Hfired : fired alert (markTriggered now alert) = 1%nat)
        by (unfold fired; by rewrite Ha).
      rewrite Hfired. unfold triggers, posts.
      split; [right; eauto|].
      destruct Hsent as [-> | (payload & -> & Hp)], err as [err|]; simpl;
        rewrite ?Hp, ?bool_decide_eq_true_2 by done; simpl;
        split_and!; try lia; repeat constructor; done.
    + simpl. rewrite fired_refl. by split_and!; [left | repeat constructor | | |].
  - simpl. rewrite fired_refl. by split_and!; [left | repeat constructor | | |].
Qed.

End Lifecycle.

Lemma pass_summary_refl (alerts : gmap string Alert) :
  registry_ok alerts → pass_summary alerts alerts [].
Proof.
  intros Hok. split_and!; try done.
  intros k a Hk. exists a. rewrite fired_refl. split_and!; try done.
  apply lifecycle_refl.
Qed.

Lemma pass_summary_trans (a b c : gmap string Alert) evs evs' :
  pass_summary a b evs → pass_summary b c evs' → pass_summary a c (evs ++ evs').
Proof.
  intros (Hokb & Hdomb & Hevb & Hb) (Hokc & Hdomc & Hevc & Hc).
  split_and!; try done.
  - by rewrite Hdomc.
  - apply Forall_app. split; [done|]. by rewrite <- Hdomb.
  - intros k x Hk.
    destruct (Hb k x Hk) as (y & Hy & Hxy & Htr & Hpo & Hin).
    destruct (Hc k y Hy) as (z & Hz & Hyz & Htr' & Hpo' & Hin').
    exists z. split_and!; try done.
    + by eapply lifecycle_trans.
    + rewrite triggers_app, Htr, Htr'. symmetry. by apply fired_trans.
    + rewrite triggers_app, posts_app. lia.
    + intros Hx. apply Forall_app. split; [by apply Hin|].
      apply Hin'. by rewrite (lifecycle_inactive x y Hx Hxy).
Qed.

Section Passes.
Context {W : Type} `{Runtime W} `{PriceService W} `{Webhook W}.

(** One round of the loop, seen from the registry. *)
Lemma pass_summary_round (alerts : gmap string Alert) k alert (w : W) :
  registry_ok alerts → alerts !! k = Some alert →
  let r := (checkAlert alert w).1 in
  pass_summary alerts (<[k := r.1]> alerts) r.2.
Proof.
  intros Hok Hk.
  destruct (Hok k alert Hk) as [Hid Hact].
  destruct (checkAlert_step alert w) as (Hlc & Hev & Htr & Hpo & Hin).
  destruct (checkAlert alert w) as [[alert' evs] w1]. simpl in *.
  destruct (lifecycle_ok _ _ _ Hid Hact Hlc) as [Hid' Hact'].
  split_and!.
  - by apply registry_ok_insert.
  - rewrite dom_insert_L. apply elem_of_dom_2 in Hk.
    apply subseteq_union_1_L. by apply singleton_subseteq_l.
  - eapply Forall_impl; [exact Hev|]. intros e ->. rewrite Hid.
    by apply elem_of_dom_2 in Hk.
  - intros k' a Hk'. destruct (decide (k = k')) as [<- | Hne].
    + assert (a = alert) as -> by congruence.
      exists alert'. rewrite lookup_insert_eq. rewrite Hid in Htr, Hpo.
      split_and!; try done.
      intros Hi. rewrite (Hin Hi). constructor.
    + exists a. rewrite lookup_insert_ne by done.
      assert (Hother : Forall (λ e, eventAlert e ≠ k') evs).
      { eapply Forall_impl; [exact Hev|]. intros e ->. congruence. }
      rewrite triggers_other, posts_other, fired_refl by done.
      split_and!; try done. apply lifecycle_refl.
Qed.

Lemma checkEach_summary order (alerts : gmap string Alert) (w : W) :
  registry_ok alerts →
  let r := (checkEach order alerts w).1 in
  pass_summary alerts r.1 r.2.
Proof.
  revert alerts w. induction order as [|k order IH]; intros alerts w Hok.
  - simpl. by apply pass_summary_refl.
  - simpl. destruct (alerts !! k) as [alert|] eqn:Hk; [|by apply IH].
    unfold bind.
    pose proof (pass_summary_round alerts k alert w Hok Hk) as Hround.
    destruct (checkAlert alert w) as [[alert' evs] w1]. simpl in Hround.
    assert (Hok' : registry_ok (<[k := alert']> alerts)) by apply Hround.
    specialize (IH _ w1 Hok').
    destruct (checkEach order _ w1) as [[alerts' evs'] w2]. simpl in *.
    by eapply pass_summary_trans.
Qed.

Lemma CheckAlerts_summary (alerts : gmap string Alert) (w : W) :
  registry_ok alerts →
  let r := (CheckAlerts alerts w).1 in
  pass_summary alerts r.1 r.2.
Proof.
  intros Hok. unfold CheckAlerts, bind.
  destruct (rangeKeys (dom alerts) w) as [order w1].
  by apply checkEach_summary.
Qed.

Lemma StartAlertChecker_summary ticks (alerts : gmap string Alert) (w : W) :
  registry_ok alerts →
  let r := (StartAlertChecker ticks alerts w).1 in
  pass_summary alerts r.1 r.2.
Proof.
  revert alerts w. induction ticks as [|ticks IH]; intros alerts w Hok.
  - simpl. by apply pass_summary_refl.
  - simpl. unfold bind.
    pose proof (CheckAlerts_summary alerts w Hok) as Hpass.
    destruct (CheckAlerts alerts w) as [[alerts1 evs] w1]. simpl in Hpass.
    assert (Hok1 : registry_ok alerts1) by apply Hpass.
    specialize (IH _ w1 Hok1).
    destruct (StartAlertChecker ticks alerts1 w1) as [[alerts' evs'] w2].
    simpl in *. by eapply pass_summary_trans.
Qed.

End Passes.

Lemma triggers_pos_elem k evs :
  (0 < triggers k evs)%nat → ∃ e, e ∈ evs ∧ eventAlert e = k.
Proof.
  unfold triggers. induction evs as [|e evs IH]; simpl; [lia|].
  destruct (isTrigger e && bool_decide (eventAlert e = k)) eqn:He.
  - intros _. exists e. split; [apply list_elem_of_here|].
    apply andb_true_iff in He as [_ He]. by apply bool_decide_eq_true in He.
  - intros Hpos. destruct IH as (e' & Hin & He'); [lia|].
    exists e'. split; [by apply list_elem_of_further | done].
Qed.

Lemma fired_1 a a' :
  fired a a' = 1%nat → lifecycle a a' →
  Active a = true ∧ Active a' = false ∧ ∃ now, a' = markTriggered now a.
Proof.
  unfold fired. intros Hf [-> | [Ha [now ->]]].
  - destruct (Active a); simpl in Hf; lia.
  - split_and!; eauto.
Qed.

Section LifecycleClaims.
Context {W : Type} `{Runtime W} `{PriceService W} `{Webhook W}.

(** C2. An alert has one transition, from active with no trigger time to not
    active with a trigger time, and takes it at most once. A round of
    [CheckAlerts] leaves an alert that is not active as it is, without
    fetching a price and without touching the world; a pass, and any number
    of passes of the periodic checker, leave every alert as it was or as it
    was but marked as triggered, never turn an inactive alert active, find
    an alert triggered at most once and send at most one POST request for
    it, and produce no event at all for an alert that was not active. *)
Theorem C2_alert_triggers_at_most_once (ticks : nat)
    (alerts : gmap string Alert) (w : W) (k : string) (a : Alert) :
  registry_ok alerts →
  alerts !! k = Some a →
  let pass := (CheckAlerts alerts w).1 in
  let run := (StartAlertChecker ticks alerts w).1 in
  (Active a = true → TriggeredAt a = None)
  ∧ (Active a = false → ∀ w', checkAlert a w' = ((a, []), w'))
  ∧ (∃ a', pass.1 !! k = Some a'
       ∧ (a' = a ∨ (Active a = true ∧ Active a' = false
                    ∧ ∃ now, TriggeredAt a' = Some now
                             ∧ a' = markTriggered now a))
       ∧ (Active a = false →
            a' = a ∧ Forall (λ e, eventAlert e ≠ k) pass.2))
  ∧ (∃ a', run.1 !! k = Some a'
       ∧ (a' = a ∨ (Active a = true ∧ Active a' = false
                    ∧ ∃ now, TriggeredAt a' = Some now
                             ∧ a' = markTriggered now a))
       ∧ (Active a' = true → Active a = true)
       ∧ (triggers k run.2 ≤ 1)%nat
       ∧ (posts k run.2 ≤ triggers k run.2)%nat
       ∧ (Active a = false →
            a' = a ∧ Forall (λ e, eventAlert e ≠ k) run.2)).
Proof.
  intros Hok Hk pass run.
  destruct (CheckAlerts_summary alerts w Hok) as (_ & _ & _ & Hpass).
  destruct (StartAlertChecker_summary ticks alerts w Hok) as (_ & _ & _ & Hrun).
  fold pass in Hpass. fold run in Hrun.
  destruct (Hpass k a Hk) as (a1 & Ha1 & Hlc1 & _ & _ & Hin1).
  destruct (Hrun k a Hk) as (a2 & Ha2 & Hlc2 & Htr2 & Hpo2 & Hin2).
  split_and!.
  - apply (Hok k a Hk).
  - intros Hi w'. by apply checkAlert_inactive.
  - exists a1. split_and!; [done | |].
    + destruct Hlc1 as [-> | [Ha [now ->]]]; [by left|]. right. eauto.
    + intros Hi. split; [by eapply lifecycle_inactive | by apply Hin1].
  - exists a2. split_and!; [done | | | | done |].
    + destruct Hlc2 as [-> | [Ha [now ->]]]; [by left|]. right. eauto.
    + destruct Hlc2 as [-> | [Ha [now ->]]]; done.
    + rewrite Htr2. apply fired_le_1.
    + intros Hi. split; [by eapply lifecycle_inactive | by apply Hin2].
Qed.

(** C9. When an active alert is evaluated and the fetched price meets its
    condition, [sendWebhook] is called in the world that the fetch left,
    then the clock is read in the world that the webhook left, and the alert
    becomes not active with that instant as its trigger time: the result of
    the webhook only decides whether a failure is logged. In a whole pass,
    an alert that was found triggered is, at the end of the pass, not active
    and has a trigger time. *)
Theorem C9_triggered_whatever_the_webhook (alert : Alert) (price : float64)
    (w w1 : W) :
  Active alert = true →
  Service.FetchPrice (Ticker alert) w = (Ok price, w1) →
  triggered (Condition alert) price (Threshold alert) = true →
  let hook := sendWebhook alert price w1 in
  let now := timeNow hook.2 in
  let r := checkAlert alert w in
  r.1.1 = markTriggered now.1 alert
  ∧ Active r.1.1 = false
  ∧ TriggeredAt r.1.1 = Some now.1
  ∧ r.2 = now.2
  ∧ r.1.2 = [Fetched (ID alert) (Ticker alert);
             LogTriggered (ID alert) (Ticker alert) price (Threshold alert)
               (Condition alert)]
            ++ hook.1.2
            ++ match hook.1.1 with
               | Some err => [LogWebhookFailed (ID alert) err]
               | None => []
               end
  ∧ ∀ (alerts : gmap string Alert) (w0 : W) (k : string),
      registry_ok alerts →
      (0 < triggers k (CheckAlerts alerts w0).1.2)%nat →
      ∃ a a' t, alerts !! k = Some a
                ∧ (CheckAlerts alerts w0).1.1 !! k = Some a'
                ∧ a' = markTriggered t a
                ∧ Active a' = false
                ∧ TriggeredAt a' = Some t.
Proof.
  intros Ha Hfetch Htrig hook now r.
  assert (Hr : r = ((markTriggered now.1 alert,
                     [Fetched (ID alert) (Ticker alert);
                      LogTriggered (ID alert) (Ticker alert) price
                        (Threshold alert) (Condition alert)]
                     ++ hook.1.2
                     ++ match hook.1.1 with
                        | Some err => [LogWebhookFailed (ID alert) err]
                        | None => []
                        end), now.2)).
  { subst r now hook. unfold checkAlert. rewrite Ha. simpl.
    unfold bind. rewrite Hfetch, Htrig.
    destruct (sendWebhook alert price w1) as [[err sent] w2]. simpl.
    by destruct (timeNow w2) as [t w3]. }
  rewrite Hr. simpl. split_and!; try done.
  intros alerts w0 k Hok Hpos.
  destruct (CheckAlerts_summary alerts w0 Hok) as (_ & _ & Hdom & Hpass).
  destruct (triggers_pos_elem _ _ Hpos) as (e & Hin & He).
  rewrite Forall_forall in Hdom. specialize (Hdom e Hin).
  rewrite He in Hdom. apply elem_of_dom in Hdom as [a Hk].
  destruct (Hpass k a Hk) as (a' & Ha' & Hlc & Htr & _).
  pose proof (fired_le_1 a a') as Hle.
  destruct (fired_1 a a') as (_ & Hi & t & ->); [lia | done |].
  exists a, (markTriggered t a), t. done.
Qed.

End LifecycleClaims.

(** The alert for AAPL above 100, checked by the mock price service (AAPL is
    at 150) on three ticks: it is triggered on the first tick and never
    again. *)
Lemma C2_witness_three_ticks :
  let alerts := aaplAbove100.2 in
  let k := "AAPL-above-100.00" in
  let run := (StartAlertChecker 3 alerts world0).1 in
  triggers k run.2 = 1%nat
  ∧ posts k run.2 = 1%nat
  ∧ run.1 !! k = Some (markTriggered 5 aaplAbove100.1)
  ∧ (StartAlertChecker 2 run.1 world0).1 = (run.1, [])
  ∧ (triggers k run.2 ≤ 1)%nat.
Proof.
  split; [reflexivity|]. split; [reflexivity|].
  split; [reflexivity|]. split; [reflexivity|].
  pose proof (C2_alert_triggers_at_most_once 3 aaplAbove100.2 world0
                "AAPL-above-100.00" aaplAbove100.1
                (registry_ok_CreateAlert _ _ _ _ _ _ registry_ok_empty)
                eq_refl) as (_ & _ & _ & a' & _ & _ & _ & Hle & _).
  exact Hle.
Defined.

(** The same alert when the webhook endpoint is down: it is marked as
    triggered all the same, and the failure is logged. *)
Lemma C9_witness_webhook_down :
  let alert := aaplAbove100.1 in
  (sendWebhook alert f150 hookDown).1.1
    = Some "failed to send webhook: connection refused"
  ∧ (checkAlert alert hookDown).1.1 = markTriggered 5 alert
  ∧ Active (checkAlert alert hookDown).1.1 = false
  ∧ TriggeredAt (checkAlert alert hookDown).1.1 = Some 5.
Proof.
  split; [reflexivity|].
  pose proof (C9_triggered_whatever_the_webhook aaplAbove100.1 f150
                hookDown hookDown eq_refl eq_refl eq_refl)
    as (Hr & Hi & Ht & _).
  split; [exact Hr|]. split; [exact Hi | exact Ht].
Defined.

(** The scenario of the spec: the alert stays active at a price of 90, is
    triggered at 101, and a later pass at 101 changes nothing and does
    nothing. *)
Example trigger_once_scenario :
  let check := @CheckAlerts World runtime quoteService webhook in
  let k := "AAPL-above-100.00" in
  let pass1 := (check aaplAbove100.2 (priced f90)).1 in
  let pass2 := (check pass1.1 (priced f101)).1 in
  let pass3 := (check pass2.1 (priced f101)).1 in
  pass1 = (aaplAbove100.2, [Fetched k "AAPL"])
  ∧ pass2.1 !! k = Some (markTriggered 5 aaplAbove100.1)
  ∧ triggers k pass2.2 = 1%nat ∧ posts k pass2.2 = 1%nat
  ∧ pass3 = (pass2.1, []).
Proof. vm_compute. split_and!; reflexivity. Qed.

(** ** The sort of [evictOldest] *)

Lemma swap_middle {A} (pre mid post : list A) (x y : A) :
  swap (length pre) (length pre + S (length mid))
       (pre ++ x :: mid ++ y :: post)
  = pre ++ y :: mid ++ x :: post.
Proof.
  unfold swap.
  assert (Hi : (pre ++ x :: mid ++ y :: post) !! length pre = Some x)
    by apply list_lookup_middle, eq_refl.
  assert (Hj : (pre ++ x :: mid ++ y :: post)
                 !! (length pre + S (length mid))%nat = Some y).
  { rewrite lookup_app_r by lia.
    replace (length pre + S (length mid) - length pre)%nat
      with (S (length mid)) by lia.
    simpl. by apply list_lookup_middle. }
  rewrite Hi, Hj.
  replace (length pre) with (length pre + 0)%nat at 2 by lia.
  rewrite insert_app_r. simpl.
  rewrite insert_app_r. simpl.
  replace (length mid) with (length mid + 0)%nat by lia.
  by rewrite insert_app_r.
Qed.

Lemma carryMin_length x rest : length (carryMin x rest).2 = length rest.
Proof.
  revert x. induction rest as [|y rest IH]; intros x; [done|]. simpl.
  destruct (After _ _).
  - specialize (IH y). destruct (carryMin y rest). simpl in *. by rewrite IH.
  - specialize (IH x). destruct (carryMin x rest). simpl in *. by rewrite IH.
Qed.

Lemma carryMin_perm x rest :
  (carryMin x rest).1 :: (carryMin x rest).2 ≡ₚ x :: rest.
Proof.
  revert x. induction rest as [|y rest IH]; intros x; [done|]. simpl.
  destruct (After _ _).
  - specialize (IH y). destruct (carryMin y rest) as [m r]. simpl in *.
    etrans; [apply Permutation_swap | by apply Permutation_skip].
  - specialize (IH x). destruct (carryMin x rest) as [m r]. simpl in *.
    etrans; [apply Permutation_swap|].
    etrans; [apply Permutation_skip, IH | apply Permutation_swap].
Qed.

Lemma carryMin_le x rest :
  te_expiry (carryMin x rest).1 ≤ te_expiry x
  ∧ Forall (λ z, te_expiry (carryMin x rest).1 ≤ te_expiry z)
           (carryMin x rest).2.
Proof.
  revert x. induction rest as [|y rest IH]; intros x; [by split|]. simpl.
  destruct (After _ _) eqn:Ha.
  - apply Z.ltb_lt in Ha.
    destruct (IH y) as [Hy Hall]. destruct (carryMin y rest) as [m r].
    simpl in *. split; [lia|]. constructor; [lia | done].
  - apply Z.ltb_ge in Ha.
    destruct (IH x) as [Hx Hall]. destruct (carryMin x rest) as [m r].
    simpl in *. split; [done|]. constructor; [lia | done].
Qed.

Lemma sortInner_carryMin pre x mid rest :
  sortInner (length rest) (length pre) (length pre + S (length mid))
            (pre ++ x :: mid ++ rest)
  = pre ++ (carryMin x rest).1 :: mid ++ (carryMin x rest).2.
Proof.
  revert x mid. induction rest as [|y rest IH]; intros x mid; [done|].
  simpl sortInner.
  assert (Hi : (pre ++ x :: mid ++ y :: rest) !! length pre = Some x)
    by apply list_lookup_middle, eq_refl.
  assert (Hj : (pre ++ x :: mid ++ y :: rest)
                 !! (length pre + S (length mid))%nat = Some y).
  { rewrite lookup_app_r by lia.
    replace (length pre + S (length mid) - length pre)%nat
      with (S (length mid)) by lia.
    simpl. by apply list_lookup_middle. }
  rewrite Hi, Hj.
  replace (S (length pre + S (length mid)))
    with (length pre + S (length (mid ++ [y])))%nat
    by (rewrite length_app; simpl; lia).
  simpl carryMin. destruct (After (te_expiry x) (te_expiry y)).
  - rewrite swap_middle.
    replace (length (mid ++ [y])) with (length (mid ++ [x]))
      by (rewrite !length_app; done).
    replace (pre ++ y :: mid ++ x :: rest)
      with (pre ++ y :: (mid ++ [x]) ++ rest)
      by (by rewrite <- app_assoc).
    rewrite IH. destruct (carryMin y rest) as [m r]. simpl.
    by rewrite <- app_assoc.
  - replace (pre ++ x :: mid ++ y :: rest)
      with (pre ++ x :: (mid ++ [y]) ++ rest)
      by (by rewrite <- app_assoc).
    rewrite IH. destruct (carryMin x rest) as [m r]. simpl.
    by rewrite <- app_assoc.
Qed.

Lemma sortOuter_exchangeSort n pre l :
  length l = n →
  sortOuter n (length pre) (pre ++ l) = pre ++ exchangeSort n l.
Proof.
  revert pre l. induction n as [|n IH]; intros pre l Hlen; [done|].
  destruct l as [|x rest]; [done|]. simpl in Hlen. simpl sortOuter.
  replace (length (pre ++ x :: rest) - S (length pre))%nat
    with (length rest) by (rewrite length_app; simpl; lia).
  pose proof (sortInner_carryMin pre x [] rest) as Hinner.
  simpl in Hinner. rewrite Nat.add_1_r in Hinner. rewrite Hinner. clear Hinner.
  pose proof (carryMin_length x rest) as Hl. cbn [exchangeSort].
  destruct (carryMin x rest) as [m r]. simpl in *.
  replace (S (length pre)) with (length (pre ++ [m]))
    by (rewrite length_app; simpl; lia).
  replace (pre ++ m :: r) with ((pre ++ [m]) ++ r) by (by rewrite <- app_assoc).
  rewrite IH by lia. by rewrite <- app_assoc.
Qed.

Lemma sortByExpiry_exchangeSort entries :
  sortByExpiry entries = exchangeSort (length entries) entries.
Proof. apply (sortOuter_exchangeSort _ [] entries eq_refl). Qed.

Lemma exchangeSort_perm n l : length l = n → exchangeSort n l ≡ₚ l.
Proof.
  revert l. induction n as [|n IH]; intros l Hlen; [done|].
  destruct l as [|x rest]; [done|]. simpl in *.
  pose proof (carryMin_length x rest) as Hl.
  pose proof (carryMin_perm x rest) as Hp.
  destruct (carryMin x rest) as [m r]. simpl in *.
  rewrite IH by lia. done.
Qed.

Lemma exchangeSort_sorted n l :
  length l = n →
  StronglySorted (λ a b, te_expiry a ≤ te_expiry b) (exchangeSort n l).
Proof.
  revert l. induction n as [|n IH]; intros l Hlen.
  - destruct l; [constructor | done].
  - destruct l as [|x rest]; [done|]. simpl in *.
    pose proof (carryMin_length x rest) as Hl.
    pose proof (carryMin_le x rest) as [_ Hall].
    destruct (carryMin x rest) as [m r]. simpl in *.
    constructor; [apply IH; lia|].
    rewrite exchangeSort_perm by lia. done.
Qed.

(** The sort of [evictOldest] permutes the entries and puts them in the
    order of their expiry, soonest first. *)
Lemma sortByExpiry_perm entries : sortByExpiry entries ≡ₚ entries.
Proof. rewrite sortByExpiry_exchangeSort. by apply exchangeSort_perm. Qed.

Lemma sortByExpiry_sorted entries :
  StronglySorted (λ a b, te_expiry a ≤ te_expiry b) (sortByExpiry entries).
Proof. rewrite sortByExpiry_exchangeSort. by apply exchangeSort_sorted. Qed.

Lemma sortByExpiry_length entries :
  length (sortByExpiry entries) = length entries.
Proof. by rewrite sortByExpiry_perm. Qed.

(** The entries that are removed expire no later than the ones that stay. *)
Lemma sortByExpiry_take_drop entries n a b :
  a ∈ take n (sortByExpiry entries) → b ∈ drop n (sortByExpiry entries) →
  te_expiry a ≤ te_expiry b.
Proof.
  intros Ha Hb. pose proof (sortByExpiry_sorted entries) as Hs.
  rewrite <- (take_drop n (sortByExpiry entries)) in Hs.
  by eapply (StronglySorted_app_1_elem_of _ _ _ a b) in Hs.
Qed.

(** ** Writing the cache *)

Section CacheWrites.
Context {W : Type} `{Runtime W}.

Lemma setCachedPrice_setCached ticker price s :
  setCachedPrice ticker price s = setCached ticker price [] s.
Proof. reflexivity. Qed.

Lemma setCachedHistory_setCached key history s :
  setCachedHistory key history s = setCached key f0 history s.
Proof. reflexivity. Qed.

(** The keys that [range] visits are the keys of the map, each once. *)
Lemma rangeKeys_elem {V} (m : gmap string V) (w : W) k :
  k ∈ (rangeKeys (dom m) w).1 ↔ is_Some (m !! k).
Proof. by rewrite rangeKeys_visits, elem_of_elements, elem_of_dom. Qed.

Lemma rangeKeys_NoDup {V} (m : gmap string V) (w : W) :
  NoDup (rangeKeys (dom m) w).1.
Proof. rewrite rangeKeys_visits. apply NoDup_elements. Qed.

Lemma rangeKeys_length {V} (m : gmap string V) (w : W) :
  length (rangeKeys (dom m) w).1 = size m.
Proof. rewrite rangeKeys_visits. by rewrite <- size_dom. Qed.

Lemma evictExpiredAt_fold_lookup now order (c : gmap string cacheEntry) k :
  foldl (evictExpiredAt now) c order !! k
  = match c !! k with
    | Some e =>
        if bool_decide (k ∈ order) && After now (expiry e) then None
        else Some e
    | None => None
    end.
Proof.
  revert c. induction order as [|t order IH]; intros c.
  - cbn [foldl]. destruct (c !! k); [|done].
    rewrite bool_decide_eq_false_2; [done | apply not_elem_of_nil].
  - cbn [foldl]. rewrite IH. unfold evictExpiredAt.
    destruct (decide (t = k)) as [-> | Hne].
    + rewrite (bool_decide_eq_true_2 (k ∈ k :: order)) by apply list_elem_of_here.
      destruct (c !! k) as [e|] eqn:Hk; [|by rewrite Hk].
      destruct (After now (expiry e)) eqn:Ha.
      * by rewrite lookup_delete_eq.
      * rewrite Hk, Ha. by rewrite andb_false_r.
    + assert (Hin : bool_decide (k ∈ t :: order) = bool_decide (k ∈ order)).
      { apply bool_decide_ext. rewrite elem_of_cons.
        split; [intros [? | ?]; [congruence | done] | auto]. }
      rewrite Hin.
      destruct (c !! t) as [e|] eqn:Ht; [|done].
      destruct (After now (expiry e)); [|done].
      by rewrite lookup_delete_ne.
Qed.

(** The sweep removes the entries that the clock is after, and no other. *)
Lemma evictExpired_swept (s : AlphaVantageService) (w : W) :
  (evictExpired s w).1 = set_cache (swept (timeNow w).1 (cache s)) s.
Proof.
  unfold evictExpired, bind. destruct (timeNow w) as [now w1]. simpl.
  pose proof (rangeKeys_elem (cache s) w1) as Hvisit.
  destruct (rangeKeys (dom (cache s)) w1) as [order w2]. simpl in *.
  f_equal. apply map_eq. intros k.
  rewrite evictExpiredAt_fold_lookup. unfold swept.
  destruct (cache s !! k) as [e|] eqn:Hk.
  - rewrite bool_decide_eq_true_2 by (apply Hvisit; eauto). simpl.
    destruct (After now (expiry e)) eqn:Ha; symmetry.
    + apply map_lookup_filter_None. right. intros e' He'. simpl.
      assert (e' = e) as -> by congruence.
      apply After_true_iff in Ha. lia.
    + apply map_lookup_filter_Some. split; [done|]. simpl.
      by apply After_false_iff.
  - symmetry. apply map_lookup_filter_None. by left.
Qed.

Lemma swept_lookup_Some now (c : gmap string cacheEntry) k e :
  swept now c !! k = Some e ↔ c !! k = Some e ∧ now ≤ expiry e.
Proof. unfold swept. by rewrite map_lookup_filter_Some. Qed.

Lemma swept_size now (c : gmap string cacheEntry) :
  (size (swept now c) ≤ size c)%nat.
Proof. apply map_subseteq_size, map_filter_subseteq. Qed.

End CacheWrites.

Lemma numToRemove_bounds (n : nat) :
  numToRemove n = Nat.max 1 (n / 10)
  ∧ (1 ≤ numToRemove n)%nat
  ∧ ((1 ≤ n)%nat → (numToRemove n ≤ n)%nat).
Proof.
  unfold numToRemove.
  assert (n / 10 ≤ n)%nat by (apply Nat.Div0.div_le_upper_bound; lia).
  destruct (n / 10 <? 1)%nat eqn:Hlt.
  - apply Nat.ltb_lt in Hlt. split_and!; lia.
  - apply Nat.ltb_ge in Hlt. split_and!; lia.
Qed.

Lemma collectEntries_tickers (c : gmap string cacheEntry) order :
  (∀ k, k ∈ order → is_Some (c !! k)) →
  te_ticker <$> collectEntries c order = order.
Proof.
  unfold collectEntries. induction order as [|k order IH]; intros Hall; [done|].
  destruct (Hall k (list_elem_of_here _ _)) as [e He].
  cbn [omap list_omap]. rewrite He. simpl. f_equal.
  apply IH. intros k' Hk'. apply Hall. by apply list_elem_of_further.
Qed.

Lemma collectEntries_elem (c : gmap string cacheEntry) order te :
  te ∈ collectEntries c order
  ↔ te_ticker te ∈ order
    ∧ ∃ e, c !! te_ticker te = Some e ∧ te_expiry te = expiry e.
Proof.
  unfold collectEntries. rewrite list_elem_of_omap. split.
  - intros (k & Hk & Hte). destruct (c !! k) as [e|] eqn:He; [|done].
    simpl in Hte. injection Hte as <-. simpl. eauto.
  - intros (Hk & e & He & Hexp). exists (te_ticker te). split; [done|].
    rewrite He. simpl. destruct te. simpl in *. by rewrite Hexp.
Qed.

Lemma delete_fold_lookup (c : gmap string cacheEntry) victims k :
  foldl (λ c e, delete (te_ticker e) c) c victims !! k
  = if bool_decide (k ∈ te_ticker <$> victims) then None else c !! k.
Proof.
  revert c. induction victims as [|v victims IH]; intros c.
  - cbn [foldl]. rewrite bool_decide_eq_false_2; [done | apply not_elem_of_nil].
  - cbn [foldl]. rewrite IH, fmap_cons.
    destruct (decide (k = te_ticker v)) as [-> | Hne].
    + rewrite (bool_decide_eq_true_2 (_ ∈ _ :: _)) by apply list_elem_of_here.
      rewrite lookup_delete_eq. by case_bool_decide.
    + rewrite lookup_delete_ne by done.
      apply (f_equal (λ b : bool, if b then None else c !! k)).
      apply bool_decide_ext. rewrite elem_of_cons.
      split; [auto | intros [? | ?]; [congruence | done]].
Qed.

Lemma delete_fold_size (c : gmap string cacheEntry) victims :
  NoDup (te_ticker <$> victims) →
  (∀ v, v ∈ victims → is_Some (c !! te_ticker v)) →
  (size (foldl (λ c e, delete (te_ticker e) c) c victims) + length victims
   = size c)%nat.
Proof.
  revert c. induction victims as [|v victims IH]; intros c Hnd Hall.
  - simpl. lia.
  - rewrite fmap_cons in Hnd. apply NoDup_cons in Hnd as [Hv Hnd].
    cbn [foldl length].
    destruct (Hall v (list_elem_of_here _ _)) as [e He].
    assert (Hrest : ∀ v', v' ∈ victims →
              is_Some (delete (te_ticker v) c !! te_ticker v')).
    { intros v' Hv'. rewrite lookup_delete_ne.
      - apply Hall. by apply list_elem_of_further.
      - intros Heq. apply Hv. rewrite Heq. by apply list_elem_of_fmap_2. }
    specialize (IH _ Hnd Hrest).
    rewrite map_size_delete_Some in IH by eauto.
    assert (size c ≠ 0)%nat; [|lia].
    intros Hz. apply map_size_empty_iff in Hz. by rewrite Hz in He.
Qed.

Lemma elem_of_take_1 {A} (x : A) n l : x ∈ take n l → x ∈ l.
Proof.
  intros Hx. rewrite <- (take_drop n l). apply elem_of_app. by left.
Qed.

Section Eviction.
Context {W : Type} `{Runtime W}.

(** [evictOldest] on a cache that is not empty removes [numToRemove]
    entries, and each of them expires no later than every entry it
    leaves. *)
Lemma evictOldest_spec (s : AlphaVantageService) (w : W) :
  size (cache s) ≠ 0%nat →
  let s' := (evictOldest s w).1 in
  ∃ victims : list string,
    NoDup victims
    ∧ (∀ k, k ∈ victims → is_Some (cache s !! k))
    ∧ length victims = numToRemove (size (cache s))
    ∧ s' = set_cache (cache s') s
    ∧ (∀ k, cache s' !! k
            = if bool_decide (k ∈ victims) then None else cache s !! k)
    ∧ (size (cache s') + length victims = size (cache s))%nat
    ∧ (∀ v ev k e, v ∈ victims → cache s !! v = Some ev →
                   cache s' !! k = Some e → expiry ev ≤ expiry e).
Proof.
  intros Hsize. unfold evictOldest.
  rewrite bool_decide_eq_false_2 by done. unfold bind.
  pose proof (rangeKeys_elem (cache s) w) as Hvisit.
  pose proof (rangeKeys_NoDup (cache s) w) as Hnd.
  pose proof (rangeKeys_length (cache s) w) as Hlen.
  destruct (rangeKeys (dom (cache s)) w) as [order w1]. simpl in *.
  set (entries := collectEntries (cache s) order).
  set (sorted := sortByExpiry entries).
  set (n := numToRemove (length sorted)).
  assert (Htick : te_ticker <$> entries = order).
  { apply collectEntries_tickers. intros k. apply Hvisit. }
  assert (Hsl : length sorted = size (cache s)).
  { subst sorted. rewrite sortByExpiry_length.
    by rewrite <- (length_fmap te_ticker), Htick. }
  assert (Hperm : te_ticker <$> sorted ≡ₚ order).
  { subst sorted. by rewrite sortByExpiry_perm, Htick. }
  assert (Hsnd : NoDup (te_ticker <$> sorted)) by (by rewrite Hperm).
  assert (Hvnd : NoDup (te_ticker <$> take n sorted)).
  { rewrite fmap_take. eapply sublist_NoDup; [exact Hsnd | apply sublist_take]. }
  assert (Hin : ∀ te, te ∈ sorted →
            ∃ e, cache s !! te_ticker te = Some e ∧ te_expiry te = expiry e).
  { intros te Hte. subst sorted. rewrite sortByExpiry_perm in Hte.
    by apply collectEntries_elem in Hte as [_ ?]. }
  assert (Hvin : ∀ v, v ∈ take n sorted → is_Some (cache s !! te_ticker v)).
  { intros v Hv. destruct (Hin v) as (e & He & _); [|eauto].
    by eapply elem_of_take_1. }
  exists (te_ticker <$> take n sorted).
  split_and!; try done.
  - intros k (v & -> & Hv)%list_elem_of_fmap. by apply Hvin.
  - rewrite length_fmap, length_take_le; [by rewrite <- Hsl|].
    subst n. rewrite Hsl. apply numToRemove_bounds. lia.
  - intros k. apply delete_fold_lookup.
  - rewrite length_fmap. by apply delete_fold_size.
  - intros k ev k' e (v & -> & Hv)%list_elem_of_fmap Hev Hk'.
    rewrite delete_fold_lookup in Hk'. case_bool_decide as Hnot; [done|].
    destruct (Hin v) as (ev' & Hev' & Hexp); [by eapply elem_of_take_1|].
    assert (ev' = ev) as -> by congruence. rewrite <- Hexp.
    set (te := mkTE k' (expiry e)).
    assert (Hte : te ∈ sorted).
    { subst sorted. rewrite sortByExpiry_perm.
      apply collectEntries_elem. simpl. split; [apply Hvisit|]; eauto. }
    rewrite <- (take_drop n sorted) in Hte.
    apply elem_of_app in Hte as [Hte | Hte].
    + exfalso. apply Hnot. by apply (list_elem_of_fmap_2 te_ticker) in Hte.
    + by apply (sortByExpiry_take_drop entries n v te).
Qed.

End Eviction.

Section Put.
Context {W : Type} `{Runtime W}.

(** The capacity check of a write, after the sweep has left [s]: which
    keys go, and what is left. *)
Lemma evict_phase (s : AlphaVantageService) (w : W) :
  let full := bool_decide (maxCacheSize s ≤ Z.of_nat (size (cache s))) in
  let s' := ((if full then evictOldest s else ret s) w).1 in
  ∃ victims : list string,
    NoDup victims
    ∧ (∀ k, k ∈ victims → is_Some (cache s !! k))
    ∧ length victims
      = (if full && negb (bool_decide (size (cache s) = 0%nat))
         then numToRemove (size (cache s)) else 0%nat)
    ∧ s' = set_cache (cache s') s
    ∧ (∀ k, cache s' !! k
            = if bool_decide (k ∈ victims) then None else cache s !! k)
    ∧ (size (cache s') + length victims = size (cache s))%nat
    ∧ (∀ v ev k e, v ∈ victims → cache s !! v = Some ev →
                   cache s' !! k = Some e → expiry ev ≤ expiry e).
Proof.
  intros full s'. subst s'.
  assert (Hnone : ∀ s0 : AlphaVantageService, s0 = s →
    ∃ victims : list string,
      NoDup victims
      ∧ (∀ k, k ∈ victims → is_Some (cache s !! k))
      ∧ length victims = 0%nat
      ∧ s0 = set_cache (cache s0) s
      ∧ (∀ k, cache s0 !! k
              = if bool_decide (k ∈ victims) then None else cache s !! k)
      ∧ (size (cache s0) + length victims = size (cache s))%nat
      ∧ (∀ v ev k e, v ∈ victims → cache s !! v = Some ev →
                     cache s0 !! k = Some e → expiry ev ≤ expiry e)).
  { intros s0 ->. exists []. split_and!.
    - constructor.
    - intros k Hk. by apply elem_of_nil in Hk.
    - done.
    - by destruct s.
    - intros k. rewrite bool_decide_eq_false_2; [done | apply not_elem_of_nil].
    - simpl. lia.
    - intros v ev k e Hv. by apply elem_of_nil in Hv. }
  destruct full; simpl; [|by apply Hnone].
  case_bool_decide as Hsize; simpl.
  - unfold evictOldest. rewrite bool_decide_eq_true_2 by done. by apply Hnone.
  - apply (evictOldest_spec s w Hsize).
Qed.

(** A write of the cache: the sweep, then the eviction if the cache is still
    full, then the store. *)
Lemma setCached_spec (key : string) (p : float64)
    (h : list HistoricalPricePoint) (s : AlphaVantageService) (w : W) :
  let kept := swept (timeNow w).1 (cache s) in
  let full := bool_decide (maxCacheSize s ≤ Z.of_nat (size kept)) in
  let s' := (setCached key p h s w).1 in
  ∃ (victims : list string) (now' : Time),
    NoDup victims
    ∧ (∀ k, k ∈ victims → is_Some (kept !! k))
    ∧ length victims
      = (if full && negb (bool_decide (size kept = 0%nat))
         then numToRemove (size kept) else 0%nat)
    ∧ (∀ v ev k e, v ∈ victims → kept !! v = Some ev →
                   kept !! k = Some e → k ∉ victims → expiry ev ≤ expiry e)
    ∧ (∀ k, cache s' !! k
            = if bool_decide (k = key)
              then Some (mkEntry p h (now' + cacheTTL s))
              else if bool_decide (k ∈ victims) then None else kept !! k)
    ∧ cacheTTL s' = cacheTTL s
    ∧ maxCacheSize s' = maxCacheSize s
    ∧ (size (cache s') + length victims ≤ size kept + 1)%nat.
Proof.
  intros kept full s'. subst s'. unfold setCached, bind.
  pose proof (evictExpired_swept s w) as Hsweep. fold kept in Hsweep.
  destruct (evictExpired s w) as [s1 w1]. simpl in Hsweep. subst s1.
  pose proof (evict_phase (set_cache kept s) w1) as Hevict.
  cbn [cache maxCacheSize set_cache] in *. subst full.
  destruct ((if bool_decide (maxCacheSize s ≤ Z.of_nat (size kept))
             then evictOldest (set_cache kept s)
             else ret (set_cache kept s)) w1) as [s2 w2].
  simpl in Hevict.
  destruct Hevict as (victims & Hnd & Hin & Hlen & Hs2 & Hlook & Hsize & Hle).
  destruct (timeNow w2) as [now' w3]. simpl.
  exists victims, now'.
  cbn [cache set_cache cacheTTL maxCacheSize fst snd ret].
  split_and!.
  - done.
  - done.
  - done.
  - intros v ev k e Hv Hev Hk Hnot. eapply Hle; [done | done |].
    rewrite Hlook. by rewrite bool_decide_eq_false_2.
  - intros k. destruct (decide (k = key)) as [-> | Hk].
    + rewrite bool_decide_eq_true_2, lookup_insert_eq by done.
      f_equal. f_equal. by rewrite Hs2.
    + rewrite bool_decide_eq_false_2, lookup_insert_ne by done. apply Hlook.
  - by rewrite Hs2.
  - by rewrite Hs2.
  - pose proof (map_size_insert key (mkEntry p h (now' + cacheTTL s2)) (cache s2))
      as Hins.
    destruct (cache s2 !! key); simpl in Hins; lia.
Qed.

(** The size of the cache stays within [maxCacheSize] across a write when
    the bound is positive. *)
Lemma setCached_bounded (key : string) (p : float64)
    (h : list HistoricalPricePoint) (s : AlphaVantageService) (w : W) :
  0 < maxCacheSize s →
  Z.of_nat (size (cache s)) ≤ maxCacheSize s →
  let s' := (setCached key p h s w).1 in
  0 < maxCacheSize s' ∧ Z.of_nat (size (cache s')) ≤ maxCacheSize s'.
Proof.
  intros Hpos Hle s'.
  destruct (setCached_spec key p h s w)
    as (victims & now' & _ & _ & Hlen & _ & _ & _ & Hmax & Hsize).
  fold s' in Hmax, Hsize. rewrite Hmax. split; [done|].
  pose proof (swept_size (timeNow w).1 (cache s)) as Hkept.
  pose proof (numToRemove_bounds (size (swept (timeNow w).1 (cache s))))
    as (_ & Hone & _).
  case_bool_decide as Hfull; simpl in Hlen.
  - case_bool_decide as Hzero; simpl in Hlen; lia.
  - lia.
Qed.

Lemma reachable_bounded (s : AlphaVantageService) :
  reachable (W := W) s →
  0 < maxCacheSize s ∧ Z.of_nat (size (cache s)) ≤ maxCacheSize s.
Proof.
  induction 1 as [key | s t p w _ [Hpos Hle] | s k h w _ [Hpos Hle]
                  | s _ [Hpos Hle] | s d _ [Hpos Hle]].
  - split; [done|]. simpl. rewrite map_size_empty. done.
  - rewrite setCachedPrice_setCached. by apply setCached_bounded.
  - rewrite setCachedHistory_setCached. by apply setCached_bounded.
  - simpl. rewrite map_size_empty. lia.
  - done.
Qed.

Lemma setCached_maxCacheSize (key : string) (p : float64)
    (h : list HistoricalPricePoint) (s : AlphaVantageService) (w : W) :
  maxCacheSize (setCached key p h s w).1 = maxCacheSize s.
Proof.
  by destruct (setCached_spec key p h s w)
    as (_ & _ & _ & _ & _ & _ & _ & _ & Hmax & _).
Qed.

Lemma write_setCached (cw : CacheWrite) (s : AlphaVantageService) :
  write cw s
  = match cw with
    | WritePrice ticker price => setCached ticker price [] s
    | WriteHistory key history => setCached key f0 history s
    end.
Proof. by destruct cw. Qed.


End Put.

Section CacheClaims.
Context {W : Type} `{Runtime W}.

(** C5, as the code has it. A write of the cache ([setCachedPrice] and
    [setCachedHistory] are the same but for the entry) first sweeps: it
    removes the entries whose expiry is before the clock, [expiry < now], and
    keeps an entry that expires at [now]. Then, if the number [count] of
    entries that remain is at least [maxCacheSize] (and is not zero), it
    removes [max 1 (count / 10)] of them, each expiring no later than every
    entry it keeps. Then it stores the new entry. *)
Theorem C5_put_sweeps_then_evicts (key : string) (p : float64)
    (h : list HistoricalPricePoint) (s : AlphaVantageService) (w : W) :
  let now := (timeNow w).1 in
  let kept := filter (λ kv, now ≤ expiry kv.2) (cache s) in
  let count := size kept in
  let s' := (setCached key p h s w).1 in
  setCachedPrice key p s = setCached key p [] s
  ∧ setCachedHistory key h s = setCached key f0 h s
  ∧ (evictExpired s w).1 = set_cache kept s
  ∧ (∀ k e, kept !! k = Some e ↔ cache s !! k = Some e ∧ ¬ expiry e < now)
  ∧ ∃ (victims : list string) (now' : Time),
      NoDup victims
      ∧ (∀ k, k ∈ victims → is_Some (kept !! k))
      ∧ length victims
        = (if bool_decide (maxCacheSize s ≤ Z.of_nat count)
              && negb (bool_decide (count = 0%nat))
           then Nat.max 1 (count / 10) else 0%nat)
      ∧ (∀ v ev k e, v ∈ victims → kept !! v = Some ev →
                     kept !! k = Some e → k ∉ victims →
                     expiry ev ≤ expiry e)
      ∧ (∀ k, cache s' !! k
              = if bool_decide (k = key)
                then Some (mkEntry p h (now' + cacheTTL s))
                else if bool_decide (k ∈ victims) then None else kept !! k).
Proof.
  intros now kept count s'.
  split; [reflexivity|]. split; [reflexivity|].
  split; [apply evictExpired_swept|].
  split.
  { intros k e. subst kept. fold (swept now (cache s)).
    rewrite swept_lookup_Some. split; intros [? ?]; split; (done || lia). }
  destruct (setCached_spec key p h s w)
    as (victims & now' & Hnd & Hin & Hlen & Hle & Hlook & _).
  exists victims, now'. split_and!; try done.
  rewrite Hlen. subst count kept now. unfold swept.
  destruct (_ && _); [|done].
  apply numToRemove_bounds.
Qed.


End CacheClaims.

(** C5, as the spec has it, fails for an entry that expires at the very
    instant of the write: the sweep keeps it, and it is still in the cache
    after the write. *)
Lemma C5_counterexample_sweep_keeps_expiry_now :
  cache oneEntry !! "AAPL" = Some (mkEntry f150 [] 5)
  ∧ (timeNow world0).1 = 5
  ∧ cache (evictExpired oneEntry world0).1 !! "AAPL"
    = Some (mkEntry f150 [] 5)
  ∧ cache (setCachedPrice "MSFT" f300 oneEntry world0).1 !! "AAPL"
    = Some (mkEntry f150 [] 5).
Proof. vm_compute. split_and!; reflexivity. Qed.


(** A full cache of three entries, none expired at instant 5: a write
    removes the entry that expires first (MSFT, at 7) and stores the new
    one, so the cache holds three entries again. *)
Example eviction_of_the_soonest :
  let s' := (setCachedPrice "TSLA" f100 fullOfThree world0).1 in
  size (cache s') = 3%nat
  ∧ cache s' !! "MSFT" = None
  ∧ cache s' !! "AAPL" = Some (mkEntry f150 [] 10)
  ∧ cache s' !! "GOOGL" = Some (mkEntry f2800 [] 9)
  ∧ cache s' !! "TSLA" = Some (mkEntry f100 [] 105).
Proof. vm_compute. split_and!; reflexivity. Qed.

(** ** The order of a history *)

(** C7 fails on the code. The points are collected in the order in which
    [range] visits the map of the decoded time series, and the slice is then
    reversed, not sorted. When the two days of the upstream answer are
    visited in ascending order, what is returned, and cached, is in
    descending order. *)
Lemma C7_history_returned_in_descending_order :
  let first := (AlphaVantage.FetchPriceHistory "AAPL" "" ""
                  (NewAlphaVantageService "") world0).1 in
  let again := (AlphaVantage.FetchPriceHistory "AAPL" "" "" first.2 world0).1 in
  (rangeKeys (dom twoDays) world0).1 = ["2024-01-01"; "2024-01-02"]
  ∧ first.1 = Ok [mkPoint "2024-01-02" f300 f300 f300 f300;
                  mkPoint "2024-01-01" f150 f150 f150 f150]
  ∧ ascending [mkPoint "2024-01-02" f300 f300 f300 f300;
               mkPoint "2024-01-01" f150 f150 f150 f150] = false
  ∧ again.1 = first.1.
Proof. vm_compute. split_and!; reflexivity. Qed.

(** The mock series is in ascending order. *)
Lemma MockPriceHistoryFetcher_ascending ticker fromDate toDate points :
  MockPriceHistoryFetcher ticker fromDate toDate = Ok points →
  ascending points = true.
Proof.
  unfold MockPriceHistoryFetcher. destruct (priceMocks !! ticker); [|done].
  by intros [= <-].
Qed.

(** The loop at the end of [FetchPriceHistory] reverses the slice. *)
Lemma reverseLoop_middle {A} n (pre mid post : list A) :
  (length mid ≤ n)%nat →
  reverseLoop n (length pre) (length pre + length mid - 1) (pre ++ mid ++ post)
  = pre ++ reverse mid ++ post.
Proof.
  revert pre mid post. induction n as [|n IH]; intros pre mid post Hn.
  - destruct mid; [done | simpl in Hn; lia].
  - cbn [reverseLoop].
    destruct mid as [|x mid]; [|destruct mid as [|x' mid] using rev_ind].
    + rewrite (proj2 (Nat.ltb_ge _ _)) by (simpl; lia). done.
    + rewrite (proj2 (Nat.ltb_ge _ _)) by (simpl; lia). done.
    + clear IHmid. rewrite length_cons, length_app in Hn. simpl in Hn.
      rewrite (proj2 (Nat.ltb_lt _ _))
        by (rewrite length_cons, length_app; simpl; lia).
      replace (length pre + length (x :: mid ++ [x']) - 1)%nat
        with (length pre + S (length mid))%nat
        by (rewrite length_cons, length_app; simpl; lia).
      replace (pre ++ (x :: mid ++ [x']) ++ post)
        with (pre ++ x :: mid ++ x' :: post)
        by (simpl; by rewrite <- app_assoc).
      rewrite swap_middle.
      replace (S (length pre)) with (length (pre ++ [x']))
        by (rewrite length_app; simpl; lia).
      replace (Nat.pred (length pre + S (length mid)))
        with (length (pre ++ [x']) + length mid - 1)%nat
        by (rewrite length_app; simpl; lia).
      replace (pre ++ x' :: mid ++ x :: post)
        with ((pre ++ [x']) ++ mid ++ (x :: post))
        by (by rewrite <- app_assoc).
      rewrite IH by lia.
      rewrite reverse_cons, reverse_app, <- !app_assoc. done.
Qed.

Lemma reverseInPlace_reverse {A} (l : list A) : reverseInPlace l = reverse l.
Proof.
  unfold reverseInPlace.
  pose proof (reverseLoop_middle (length l) [] l [] (Nat.le_refl _)) as Hr.
  simpl in Hr. rewrite !app_nil_r in Hr. exact Hr.
Qed.

Section History.
Context {W : Type} `{Runtime W} `{Upstream W}.

(** What [FetchPriceHistory] returns when the cache has no fresh entry and
    the upstream answers with a time series: the points of the days in the
    range, in the reverse of the order in which [range] visited the map. *)
Lemma FetchPriceHistory_fresh (ticker fromDate toDate body : string)
    (s : AlphaVantageService) (w w2 : W)
    (avResponse timeSeries : gmap string JSON) :
  let cacheKey :=
    "history_" +:+ ticker +:+ "_" +:+ fromDate +:+ "_" +:+ toDate in
  let read := getCachedHistory cacheKey s w in
  read.1.2 = false →
  httpGet (baseURL s)
    [("function", "TIME_SERIES_DAILY"); ("symbol", ticker);
     ("apikey", apiKey s); ("outputsize", "full")] read.2
  = (Response 200 (Ok body), w2) →
  UnmarshalObject body = Ok avResponse →
  avResponse !! "Time Series (Daily)" = Some (JObject timeSeries) →
  (AlphaVantage.FetchPriceHistory ticker fromDate toDate s w).1.1
  = Ok (reverse (foldl (historyStep fromDate toDate timeSeries) []
                       (rangeKeys (dom timeSeries) w2).1)).
Proof.
  intros cacheKey read Hmiss Hget Hbody Hseries.
  unfold AlphaVantage.FetchPriceHistory. fold cacheKey. unfold bind at 1.
  fold read. destruct read as [[cached found] w1]. simpl in Hmiss, Hget.
  subst found. unfold bind at 1. rewrite Hget.
  rewrite bool_decide_eq_false_2 by (intros Hne; by apply Hne).
  rewrite Hbody, Hseries. unfold bind.
  destruct (rangeKeys (dom timeSeries) w2) as [order w3]. simpl.
  rewrite reverseInPlace_reverse.
  by destruct (setCachedHistory _ _ s w3).
Qed.

End History.

(** * More of the code

    ** The cache of [AlphaVantageService] *)

Lemma StronglySorted_lookup_lt {A} (R : A → A → Prop) (l : list A) i j a b :
  StronglySorted R l → (i < j)%nat →
  l !! i = Some a → l !! j = Some b → R a b.
Proof.
  intros Hs. revert i j. induction Hs as [|x l Hs IH Hall]; intros i j Hij Hi Hj.
  - by rewrite lookup_nil in Hi.
  - destruct j as [|j]; [lia|]. simpl in Hj. destruct i as [|i].
    + simpl in Hi. injection Hi as ->.
      rewrite Forall_forall in Hall. apply Hall.
      by eapply list_elem_of_lookup_2.
    + simpl in Hi. apply (IH i j); [lia | done | done].
Qed.

(** X1. The sort that [evictOldest] writes out with two loops is a sort: its
    result has the entries of its input, each as often as the input has it,
    in the order of their expiry, the soonest first. *)
Theorem X1_sortByExpiry_sorts (entries : list tickerExpiry) :
  sortByExpiry entries ≡ₚ entries
  ∧ length (sortByExpiry entries) = length entries
  ∧ StronglySorted (λ a b, te_expiry a ≤ te_expiry b) (sortByExpiry entries)
  ∧ ∀ i j a b, (i < j)%nat →
               sortByExpiry entries !! i = Some a →
               sortByExpiry entries !! j = Some b →
               te_expiry a ≤ te_expiry b.
Proof.
  split_and!.
  - apply sortByExpiry_perm.
  - apply sortByExpiry_length.
  - apply sortByExpiry_sorted.
  - intros i j a b Hij Hi Hj.
    eapply (StronglySorted_lookup_lt (λ a b, te_expiry a ≤ te_expiry b));
      eauto using sortByExpiry_sorted.
Qed.

(** X2. The loop that ends [FetchPriceHistory], which exchanges the entries
    at [i] and [j] while [i < j], reverses the slice, whatever its length. *)
Theorem X2_reverseInPlace_reverses {A : Type} (l : list A) :
  reverseInPlace l = reverse l
  ∧ length (reverseInPlace l) = length l
  ∧ reverseInPlace (reverseInPlace l) = l.
Proof.
  rewrite !reverseInPlace_reverse. split_and!; [done | |].
  - apply length_reverse.
  - apply reverse_involutive.
Qed.

Section CacheMore.
Context {W : Type} `{Runtime W}.

(** X3. [evictOldest] leaves an empty cache as it is. From a cache with [n]
    entries, [n] not zero, it removes [max 1 (n / 10)] entries, which are at
    most [n], so that the loop over [entries[i]] stays within the slice; it
    adds and changes no entry; and every entry that it removes expires no
    later than every entry that it leaves. *)
Theorem X3_evictOldest_contract (s : AlphaVantageService) (w : W) :
  let n := size (cache s) in
  let s' := (evictOldest s w).1 in
  (Nat.max 1 (n / 10) ≤ Nat.max 1 n)%nat
  ∧ size (cache s')
    = (if bool_decide (n = 0%nat) then 0 else n - Nat.max 1 (n / 10))%nat
  ∧ cache s' ⊆ cache s
  ∧ s' = set_cache (cache s') s
  ∧ ∀ k e k' e', cache s !! k = Some e → cache s' !! k = None →
                 cache s' !! k' = Some e' → expiry e ≤ expiry e'.
Proof.
  intros n s'.
  assert (Hdiv : (n / 10 ≤ n)%nat) by (apply Nat.Div0.div_le_upper_bound; lia).
  split; [lia|].
  destruct (decide (n = 0%nat)) as [Hz | Hnz].
  - assert (Hs' : s' = s).
    { subst s' n. unfold evictOldest. by rewrite bool_decide_eq_true_2. }
    rewrite Hs', bool_decide_eq_true_2 by done. split_and!.
    + done.
    + done.
    + by destruct s.
    + intros k e k' e' Hk Hgone. congruence.
  - rewrite bool_decide_eq_false_2 by done.
    destruct (evictOldest_spec s w Hnz)
      as (victims & Hnd & Hin & Hlen & Hs' & Hlook & Hsize & Hsoon).
    fold s' in Hs', Hlook, Hsize, Hsoon. fold n in Hlen, Hsize.
    destruct (numToRemove_bounds n) as (Hnum & _ & _).
    split_and!.
    + lia.
    + apply map_subseteq_spec. intros k e Hk. rewrite Hlook in Hk.
      by destruct (bool_decide (k ∈ victims)).
    + done.
    + intros k e k' e' Hk Hgone Hk'.
      rewrite Hlook in Hgone.
      destruct (decide (k ∈ victims)) as [Hv | Hnv].
      * by eapply Hsoon.
      * rewrite bool_decide_eq_false_2 in Hgone by done. congruence.
Qed.

Lemma setCached_stored (key : string) (p : float64)
    (h : list HistoricalPricePoint) (s : AlphaVantageService) (w : W) :
  ∃ w2, cache (setCached key p h s w).1 !! key
        = Some (mkEntry p h ((timeNow w2).1 + cacheTTL s)).
Proof.
  unfold setCached, bind.
  pose proof (evictExpired_swept s w) as Hsweep.
  destruct (evictExpired s w) as [s1 w1]. simpl in Hsweep.
  pose proof (evict_phase s1 w1) as (victims & _ & _ & _ & Hs2 & _).
  destruct ((if bool_decide (maxCacheSize s1 ≤ Z.of_nat (size (cache s1)))
             then evictOldest s1 else ret s1) w1) as [s2 w2].
  simpl in Hs2. exists w2. destruct (timeNow w2) as [now w3]. simpl.
  rewrite lookup_insert_eq. rewrite Hs2, Hsweep. done.
Qed.

(** X4. What is written is read back. After [setCachedPrice] the key has an
    entry with the price, which expires one [cacheTTL] after a reading of the
    clock, and [getCachedPrice] returns the price at every instant up to that
    expiry and nothing after it; the same holds of [setCachedHistory] and
    [getCachedHistory]. After [ClearCache] no key is read. *)
Theorem X4_cache_write_then_read (key : string) (p : float64)
    (h : list HistoricalPricePoint) (s : AlphaVantageService) (w : W) :
  (∃ entry w2,
     cache (setCachedPrice key p s w).1 !! key = Some entry
     ∧ price entry = p
     ∧ expiry entry = (timeNow w2).1 + cacheTTL s
     ∧ ∀ w', (getCachedPrice key (setCachedPrice key p s w).1 w').1
             = if bool_decide ((timeNow w').1 ≤ expiry entry)
               then (p, true) else (f0, false))
  ∧ (∃ entry w2,
       cache (setCachedHistory key h s w).1 !! key = Some entry
       ∧ history entry = h
       ∧ expiry entry = (timeNow w2).1 + cacheTTL s
       ∧ ∀ w', (getCachedHistory key (setCachedHistory key h s w).1 w').1
               = if bool_decide ((timeNow w').1 ≤ expiry entry)
                 then (h, true) else ([], false))
  ∧ ∀ k w', (getCachedPrice k (ClearCache s) w').1 = (f0, false)
            ∧ (getCachedHistory k (ClearCache s) w').1 = ([], false).
Proof.
  split_and!.
  - destruct (setCached_stored key p [] s w) as [w2 Hst].
    rewrite <- setCachedPrice_setCached in Hst.
    eexists _, w2. split_and!; [exact Hst | done | done |].
    intros w'. rewrite getCachedPrice_eq, Hst. done.
  - destruct (setCached_stored key f0 h s w) as [w2 Hst].
    rewrite <- setCachedHistory_setCached in Hst.
    eexists _, w2. split_and!; [exact Hst | done | done |].
    intros w'. rewrite getCachedHistory_eq, Hst. done.
  - intros k w'. rewrite getCachedPrice_eq, getCachedHistory_eq. simpl.
    by rewrite lookup_empty.
Qed.

(** X5. Prices and histories share one map, and each reader looks at the
    expiry only. So the two readers find the same keys at the same instants:
    a key that holds a history is read by [getCachedPrice] as the price 0,
    and a key that holds a price is read by [getCachedHistory] as the empty
    history. *)
Theorem X5_readers_share_the_entries (key : string) (p : float64)
    (h : list HistoricalPricePoint) (s : AlphaVantageService) (w w' : W) :
  (getCachedPrice key s w).1.2 = (getCachedHistory key s w).1.2
  ∧ (getCachedPrice key (setCachedHistory key h s w).1 w').1
    = (if (getCachedHistory key (setCachedHistory key h s w).1 w').1.2
       then (f0, true) else (f0, false))
  ∧ (getCachedHistory key (setCachedPrice key p s w).1 w').1
    = (if (getCachedPrice key (setCachedPrice key p s w).1 w').1.2
       then ([], true) else ([], false)).
Proof.
  split_and!.
  - rewrite getCachedPrice_eq, getCachedHistory_eq.
    destruct (cache s !! key) as [entry|]; [|done].
    by destruct (bool_decide _).
  - destruct (setCached_stored key f0 h s w) as [w2 Hst].
    rewrite <- setCachedHistory_setCached in Hst.
    rewrite getCachedPrice_eq, getCachedHistory_eq, Hst. simpl.
    by destruct (bool_decide _).
  - destruct (setCached_stored key p [] s w) as [w2 Hst].
    rewrite <- setCachedPrice_setCached in Hst.
    rewrite getCachedPrice_eq, getCachedHistory_eq, Hst. simpl.
    by destruct (bool_decide _).
Qed.

End CacheMore.

(** ** Fetching through the cache *)

Section FetchMore.
Context {W : Type} `{Runtime W} `{Upstream W}.

Lemma getCachedPrice_found (ticker : string) (s : AlphaVantageService) (w : W) :
  (getCachedPrice ticker s w).1.2 = true →
  ∃ entry, cache s !! ticker = Some entry
           ∧ price entry = (getCachedPrice ticker s w).1.1.
Proof.
  rewrite getCachedPrice_eq. destruct (cache s !! ticker) as [entry|]; [|done].
  destruct (bool_decide _); [|done]. eauto.
Qed.

Lemma getCachedHistory_found (key : string) (s : AlphaVantageService) (w : W) :
  (getCachedHistory key s w).1.2 = true →
  ∃ entry, cache s !! key = Some entry
           ∧ history entry = (getCachedHistory key s w).1.1.
Proof.
  rewrite getCachedHistory_eq. destruct (cache s !! key) as [entry|]; [|done].
  destruct (bool_decide _); [|done]. eauto.
Qed.

(** X6. [FetchPrice] and the cache. When the cache has a fresh entry for the
    ticker, its price is returned, the service is not changed, and the world
    is the one that the reading of the clock left: the upstream is not
    asked. When the call fails, the service, and so the cache, is as it was
    before the call. When the call succeeds, the cache holds the returned
    price under the ticker, and on a miss that price is what the upstream
    gave. *)
Theorem X6_FetchPrice_and_the_cache (ticker : string)
    (s : AlphaVantageService) (w : W) :
  let read := getCachedPrice ticker s w in
  let r := AlphaVantage.FetchPrice ticker s w in
  (read.1.2 = true → r = ((Ok read.1.1, s), read.2))
  ∧ (∀ err, r.1.1 = Err err → r.1.2 = s)
  ∧ (∀ p, r.1.1 = Ok p →
       ∃ entry, cache r.1.2 !! ticker = Some entry ∧ price entry = p)
  ∧ (read.1.2 = false →
       r.1.1 = (fetchQuote ticker s read.2).1).
Proof.
  intros read r.
  pose proof (getCachedPrice_found ticker s w) as Hfound. fold read in Hfound.
  subst r. unfold AlphaVantage.FetchPrice, bind. fold read.
  destruct read as [[cached found] w1]. simpl in *.
  destruct found.
  - split_and!; try done.
    intros p [= <-]. destruct Hfound as (entry & He & Hp); eauto.
  - destruct (fetchQuote ticker s w1) as [[p|err] w2]; simpl.
    + pose proof (setCached_stored ticker p [] s w2) as [w3 Hst].
      rewrite <- setCachedPrice_setCached in Hst.
      destruct (setCachedPrice ticker p s w2) as [s' w4]. simpl in *.
      split_and!; try done.
      intros p' [= <-]. eauto.
    + split_and!; done.
Qed.

(** The loop over the time series appends, for each key, one point or
    none. *)
Lemma historyStep_app fromDate toDate (timeSeries : gmap string JSON) acc date :
  historyStep fromDate toDate timeSeries acc date
  = acc ++ historyStep fromDate toDate timeSeries [] date.
Proof.
  unfold historyStep.
  destruct (timeSeries !! date) as [[| | | | |dataPoint]|];
    rewrite ?app_nil_r; try done.
  destruct (_ && _); [by rewrite app_nil_r|].
  destruct (_ && _); [by rewrite app_nil_r|]. done.
Qed.

Lemma historyStep_fold fromDate toDate (timeSeries : gmap string JSON) acc order :
  foldl (historyStep fromDate toDate timeSeries) acc order
  = acc ++ (order ≫= historyStep fromDate toDate timeSeries []).
Proof.
  revert acc. induction order as [|date order IH]; intros acc.
  - simpl. by rewrite app_nil_r.
  - cbn [foldl]. rewrite IH, historyStep_app, bind_cons, app_assoc. done.
Qed.

Lemma historyStep_elem fromDate toDate (timeSeries : gmap string JSON) date p :
  p ∈ historyStep fromDate toDate timeSeries [] date
  ↔ Date p = date
    ∧ ∃ dataPoint,
        timeSeries !! date = Some (JObject dataPoint)
        ∧ (fromDate = "" ∨ String.ltb date fromDate = false)
        ∧ (toDate = "" ∨ String.ltb toDate date = false)
        ∧ Open p = (parsePrice (dataPoint !! "1. open")).1
        ∧ High p = (parsePrice (dataPoint !! "2. high")).1
        ∧ Low p = (parsePrice (dataPoint !! "3. low")).1
        ∧ Close p = (parsePrice (dataPoint !! "4. close")).1.
Proof.
  unfold historyStep.
  destruct (timeSeries !! date) as [[| | | | |dataPoint]|];
    try (split; [by intros ?%elem_of_nil | by intros (_ & ? & [=] & _)]).
  destruct (decide (fromDate = "")) as [Hf | Hf].
  - rewrite (bool_decide_eq_false_2 (fromDate ≠ "")) by (by intros Hn; apply Hn).
    cbn [andb].
    destruct (decide (toDate = "")) as [Ht | Ht].
    + rewrite (bool_decide_eq_false_2 (toDate ≠ "")) by (by intros Hn; apply Hn).
      cbn [andb app]. rewrite list_elem_of_singleton. split.
      * intros ->. simpl. split; [done|]. exists dataPoint. split_and!; auto.
      * intros (<- & dp & [= <-] & _ & _ & Ho & Hh & Hl & Hc).
        destruct p; simpl in *; congruence.
    + rewrite (bool_decide_eq_true_2 (toDate ≠ "")) by done. cbn [andb].
      destruct (String.ltb toDate date) eqn:Hlt.
      * split; [by intros ?%elem_of_nil|].
        intros (_ & dp & _ & _ & [? | ?] & _); congruence.
      * cbn [app]. rewrite list_elem_of_singleton. split.
        -- intros ->. simpl. split; [done|]. exists dataPoint. split_and!; auto.
        -- intros (<- & dp & [= <-] & _ & _ & Ho & Hh & Hl & Hc).
           destruct p; simpl in *; congruence.
  - rewrite (bool_decide_eq_true_2 (fromDate ≠ "")) by done. cbn [andb].
    destruct (String.ltb date fromDate) eqn:Hlf.
    { split; [by intros ?%elem_of_nil|].
      intros (_ & dp & _ & [? | ?] & _); congruence. }
    destruct (decide (toDate = "")) as [Ht | Ht].
    + rewrite (bool_decide_eq_false_2 (toDate ≠ "")) by (by intros Hn; apply Hn).
      cbn [andb app]. rewrite list_elem_of_singleton. split.
      * intros ->. simpl. split; [done|]. exists dataPoint. split_and!; auto.
      * intros (<- & dp & [= <-] & _ & _ & Ho & Hh & Hl & Hc).
        destruct p; simpl in *; congruence.
    + rewrite (bool_decide_eq_true_2 (toDate ≠ "")) by done. cbn [andb].
      destruct (String.ltb toDate date) eqn:Hlt.
      * split; [by intros ?%elem_of_nil|].
        intros (_ & dp & _ & _ & [? | ?] & _); congruence.
      * cbn [app]. rewrite list_elem_of_singleton. split.
        -- intros ->. simpl. split; [done|]. exists dataPoint. split_and!; auto.
        -- intros (<- & dp & [= <-] & _ & _ & Ho & Hh & Hl & Hc).
           destruct p; simpl in *; congruence.
Qed.

Lemma historyStep_dates_NoDup fromDate toDate (timeSeries : gmap string JSON) order :
  NoDup order →
  NoDup (Date <$> (order ≫= historyStep fromDate toDate timeSeries [])).
Proof.
  induction 1 as [|date order Hnot Hnd IH]; [constructor|].
  rewrite bind_cons, fmap_app. apply NoDup_app. split_and!.
  - unfold historyStep.
    destruct (timeSeries !! date) as [[| | | | |dataPoint]|];
      try constructor.
    destruct (_ && _); [constructor|]. destruct (_ && _); [constructor|].
    apply NoDup_singleton.
  - intros d (p & -> & Hp)%list_elem_of_fmap (q & Hq & Hin)%list_elem_of_fmap.
    apply historyStep_elem in Hp as [Hp _].
    apply list_elem_of_bind in Hin as (date' & Hq' & Hd').
    apply historyStep_elem in Hq' as [Hq' _].
    apply Hnot. congruence.
  - done.
Qed.

(** X7. On a miss of the cache and an answer of the upstream that has a
    time series, [FetchPriceHistory] returns one point for each day of the
    series that is a JSON object and lies in the range, not before
    [fromDate] and not after [toDate] where these are given, and no other
    point; the prices of a point are what [parsePrice] reads from the four
    fields of its day. No day occurs twice. *)
Theorem X7_history_is_the_days_in_range (ticker fromDate toDate body : string)
    (s : AlphaVantageService) (w w2 : W)
    (avResponse timeSeries : gmap string JSON) :
  let cacheKey :=
    "history_" +:+ ticker +:+ "_" +:+ fromDate +:+ "_" +:+ toDate in
  let read := getCachedHistory cacheKey s w in
  read.1.2 = false →
  httpGet (baseURL s)
    [("function", "TIME_SERIES_DAILY"); ("symbol", ticker);
     ("apikey", apiKey s); ("outputsize", "full")] read.2
  = (Response 200 (Ok body), w2) →
  UnmarshalObject body = Ok avResponse →
  avResponse !! "Time Series (Daily)" = Some (JObject timeSeries) →
  ∃ points,
    (AlphaVantage.FetchPriceHistory ticker fromDate toDate s w).1.1 = Ok points
    ∧ NoDup (Date <$> points)
    ∧ ∀ p, p ∈ points
           ↔ ∃ dataPoint,
               timeSeries !! Date p = Some (JObject dataPoint)
               ∧ (fromDate = "" ∨ String.ltb (Date p) fromDate = false)
               ∧ (toDate = "" ∨ String.ltb toDate (Date p) = false)
               ∧ Open p = (parsePrice (dataPoint !! "1. open")).1
               ∧ High p = (parsePrice (dataPoint !! "2. high")).1
               ∧ Low p = (parsePrice (dataPoint !! "3. low")).1
               ∧ Close p = (parsePrice (dataPoint !! "4. close")).1.
Proof.
  intros cacheKey read Hmiss Hget Hbody Hseries.
  pose proof (FetchPriceHistory_fresh ticker fromDate toDate body s w w2
                avResponse timeSeries Hmiss Hget Hbody Hseries) as Hr.
  eexists. split; [exact Hr|].
  rewrite historyStep_fold. cbn [app].
  pose proof (rangeKeys_elem timeSeries w2) as Hvisit.
  pose proof (rangeKeys_NoDup timeSeries w2) as Hnd.
  destruct (rangeKeys (dom timeSeries) w2) as [order w3]. simpl in *.
  split.
  - rewrite fmap_reverse, reverse_Permutation.
    by apply historyStep_dates_NoDup.
  - intros p. rewrite elem_of_reverse, list_elem_of_bind. split.
    + intros (date & Hp & _). apply historyStep_elem in Hp as [<- Hp]. done.
    + intros (dataPoint & Hts & Hrest). exists (Date p). split.
      * apply historyStep_elem. split; [done|]. eauto.
      * apply Hvisit. eauto.
Qed.

(** X8. [FetchPriceHistory] and the cache. When the cache has a fresh entry
    under the key of the request, its history is returned, the service is
    not changed and the upstream is not asked. When the call fails the
    service is as it was before; when it succeeds the cache holds the
    returned history under the key of the request. *)
Theorem X8_FetchPriceHistory_and_the_cache (ticker fromDate toDate : string)
    (s : AlphaVantageService) (w : W) :
  let cacheKey :=
    "history_" +:+ ticker +:+ "_" +:+ fromDate +:+ "_" +:+ toDate in
  let read := getCachedHistory cacheKey s w in
  let r := AlphaVantage.FetchPriceHistory ticker fromDate toDate s w in
  (read.1.2 = true → r = ((Ok read.1.1, s), read.2))
  ∧ (∀ err, r.1.1 = Err err → r.1.2 = s)
  ∧ (∀ points, r.1.1 = Ok points →
       ∃ entry, cache r.1.2 !! cacheKey = Some entry
                ∧ history entry = points).
Proof.
  intros cacheKey read r.
  pose proof (getCachedHistory_found cacheKey s w) as Hfound.
  fold read in Hfound.
  subst r. unfold AlphaVantage.FetchPriceHistory, bind. fold cacheKey read.
  destruct read as [[cached found] w1]. simpl in *.
  destruct found.
  { split_and!; try done.
    intros p [= <-]. destruct Hfound as (entry & He & Hp); eauto. }
  destruct (httpGet _ _ w1) as [[err | err | code body] w2]; simpl;
    [by split_and! | by split_and! |].
  destruct (bool_decide (code ≠ 200)); [by split_and!|].
  destruct body as [body | err]; [|by split_and!].
  destruct (UnmarshalObject body) as [avResponse | err]; [|by split_and!].
  destruct (avResponse !! "Time Series (Daily)") as [[| | | | |timeSeries]|];
    try (by split_and!).
  destruct (rangeKeys (dom timeSeries) w2) as [order w3].
  set (points := reverseInPlace _).
  pose proof (setCached_stored cacheKey f0 points s w3) as [w4 Hst].
  rewrite <- setCachedHistory_setCached in Hst.
  destruct (setCachedHistory cacheKey points s w3) as [s' w5]. simpl in *.
  split_and!; try done.
  intros p' [= <-]. eauto.
Qed.

End FetchMore.

(** The request of January 2nd onwards in the world of the example: the
    day before is left out. *)
Lemma X7_witness_from_second_day :
  (AlphaVantage.FetchPriceHistory "AAPL" "2024-01-02" ""
     (NewAlphaVantageService "") world0).1.1
  = Ok [mkPoint "2024-01-02" f300 f300 f300 f300]
  ∧ ∃ points,
      (AlphaVantage.FetchPriceHistory "AAPL" "2024-01-02" ""
         (NewAlphaVantageService "") world0).1.1 = Ok points
      ∧ NoDup (Date <$> points).
Proof.
  split; [by vm_compute|].
  destruct (X7_history_is_the_days_in_range "AAPL" "2024-01-02" "" "AAPL"
              (NewAlphaVantageService "") world0 world0
              {[ "Time Series (Daily)" := JObject twoDays ]} twoDays)
    as (points & Hr & Hnd & _); [by vm_compute.. |].
  exists points. split; [exact Hr | exact Hnd].
Defined.

(** ** The registry of alerts *)

(** X9. The registry as a store. An alert that [CreateAlert] made is what
    [GetAlert] returns for its id, and the other ids are as before.
    [DeleteAlert] of an id that is not there returns an error and changes
    nothing; [DeleteAlert] of an id that is there returns no error, removes
    this one alert, after which [GetAlert] and a second [DeleteAlert] fail,
    and leaves the other ids as they were. *)
Theorem X9_registry_create_get_delete (now : Time) (ticker : string)
    (condition : AlertCondition) (threshold : float64) (url : string)
    (alerts : gmap string Alert) (id : string) :
  let created := CreateAlert now ticker condition threshold url alerts in
  let deleted := DeleteAlert id alerts in
  GetAlert (ID created.1) created.2 = inl created.1
  ∧ (id ≠ ID created.1 → GetAlert id created.2 = GetAlert id alerts)
  ∧ (alerts !! id = None →
       deleted = (Some ("alert not found: " +:+ id), alerts)
       ∧ GetAlert id alerts = inr ("alert not found: " +:+ id))
  ∧ (is_Some (alerts !! id) →
       deleted.1 = None
       ∧ S (size deleted.2) = size alerts
       ∧ GetAlert id deleted.2 = inr ("alert not found: " +:+ id)
       ∧ (DeleteAlert id deleted.2).1 = Some ("alert not found: " +:+ id))
  ∧ (∀ id', id' ≠ id → GetAlert id' deleted.2 = GetAlert id' alerts).
Proof.
  intros created deleted. subst created deleted.
  unfold GetAlert, DeleteAlert, CreateAlert. simpl. split_and!.
  - by rewrite lookup_insert_eq.
  - intros Hne. by rewrite lookup_insert_ne.
  - intros Hnone. by rewrite Hnone.
  - intros [a Ha]. rewrite Ha. simpl. rewrite lookup_delete_eq.
    split_and!; try done.
    rewrite map_size_delete_Some by eauto.
    assert (size alerts ≠ 0%nat); [|lia].
    intros Hz. apply map_size_empty_iff in Hz. by rewrite Hz in Ha.
  - intros id' Hne. destruct (alerts !! id); simpl; [|done].
    by rewrite lookup_delete_ne.
Qed.

Lemma omap_lookup_fst {V} (m : gmap string V) (l : list (string * V)) :
  (∀ k v, (k, v) ∈ l → m !! k = Some v) →
  omap (λ k, m !! k) l.*1 = l.*2.
Proof.
  induction l as [|[k v] l IH]; intros Hall; [done|].
  cbn [fmap list_fmap omap list_omap fst snd].
  rewrite (Hall k v) by apply list_elem_of_here.
  f_equal. apply IH. intros k' v' Hin. apply Hall.
  by apply list_elem_of_further.
Qed.

Lemma elements_dom_map_to_list {V} (m : gmap string V) :
  elements (dom m) ≡ₚ (map_to_list m).*1.
Proof.
  apply NoDup_Permutation.
  - apply NoDup_elements.
  - apply NoDup_fst_map_to_list.
  - intros k. rewrite elem_of_elements, elem_of_dom. split.
    + intros [v Hv]. apply list_elem_of_fmap. exists (k, v).
      split; [done|]. by apply elem_of_map_to_list.
    + intros ([k' v] & -> & Hin)%list_elem_of_fmap.
      apply elem_of_map_to_list in Hin. eauto.
Qed.

Section RegistryMore.
Context {W : Type} `{Runtime W} `{PriceService W} `{Webhook W}.

(** X10. [ListAlerts] returns every alert of the registry once, in the
    order in which the runtime visits the map: the list is a permutation of
    the values of the map, it is as long as the registry has alerts, an
    alert is in it exactly when it is stored under some id, and it is empty
    for an empty registry. *)
Theorem X10_ListAlerts_lists_every_alert_once (alerts : gmap string Alert)
    (w : W) :
  let listed := (ListAlerts alerts w).1 in
  listed ≡ₚ (map_to_list alerts).*2
  ∧ length listed = size alerts
  ∧ (∀ a, a ∈ listed ↔ ∃ k, alerts !! k = Some a)
  ∧ (alerts = ∅ → listed = []).
Proof.
  intros listed. subst listed. unfold ListAlerts, bind.
  pose proof (rangeKeys_visits (dom alerts) w) as Hvisit.
  destruct (rangeKeys (dom alerts) w) as [order w1]. simpl in *.
  assert (Hperm : omap (λ k, alerts !! k) order ≡ₚ (map_to_list alerts).*2).
  { rewrite Hvisit, elements_dom_map_to_list.
    rewrite omap_lookup_fst; [done|].
    intros k v Hin. by apply elem_of_map_to_list. }
  split_and!.
  - done.
  - by rewrite Hperm, length_fmap, length_map_to_list.
  - intros a. rewrite Hperm, list_elem_of_fmap. split.
    + intros ([k a'] & -> & Hin). exists k. by apply elem_of_map_to_list.
    + intros [k Hk]. exists (k, a). split; [done|].
      by apply elem_of_map_to_list.
  - intros ->. rewrite map_to_list_empty in Hperm.
    by apply Permutation_nil_r in Hperm.
Qed.

Lemma registry_wf_ok (alerts : gmap string Alert) :
  registry_wf alerts → registry_ok alerts.
Proof.
  intros Hwf k a Hk. destruct (Hwf k a Hk) as (Hid & _ & Hact).
  split; [done | apply Hact].
Qed.

Lemma lifecycle_wf a a' :
  lifecycle a a' →
  ID a = alertID (Ticker a) (Condition a) (Threshold a)
  ∧ (Active a = true ↔ TriggeredAt a = None) →
  ID a' = ID a
  ∧ ID a' = alertID (Ticker a') (Condition a') (Threshold a')
  ∧ (Active a' = true ↔ TriggeredAt a' = None).
Proof. intros [-> | [Ha [now ->]]] [Hid Hact]; [done|]. simpl. done. Qed.

Lemma pass_summary_wf (alerts alerts' : gmap string Alert) evs :
  registry_wf alerts → pass_summary alerts alerts' evs → registry_wf alerts'.
Proof.
  intros Hwf (_ & Hdom & _ & Hpass) k a' Hk'.
  assert (Hin : k ∈ dom alerts) by (rewrite <- Hdom; by eapply elem_of_dom_2).
  apply elem_of_dom in Hin as [a Hk].
  destruct (Hpass k a Hk) as (a'' & Hk'' & Hlc & _).
  assert (a'' = a') as -> by congruence.
  destruct (Hwf k a Hk) as (Hid & Hdef & Hact).
  destruct (lifecycle_wf a a' Hlc (conj Hdef Hact)) as (Hid' & Hdef' & Hact').
  split_and!; [congruence | done | done].
Qed.

Lemma runOp_wf (op : RegistryOp) (alerts : gmap string Alert) (w : W) :
  registry_wf alerts → registry_wf (runOp op alerts w).1.
Proof.
  intros Hwf. destruct op as [ticker condition threshold url | id |]; simpl.
  - unfold bind. destruct (timeNow w) as [now w1]. simpl.
    intros k a Hk. destruct (decide (alertID ticker condition threshold = k))
      as [<- | Hne].
    + rewrite lookup_insert_eq in Hk. injection Hk as <-. by simpl.
    + rewrite lookup_insert_ne in Hk by done. by apply Hwf.
  - unfold DeleteAlert. destruct (alerts !! id) as [found|]; [|done]. simpl.
    intros k a [_ Hk]%lookup_delete_Some. by apply Hwf.
  - unfold bind.
    pose proof (CheckAlerts_summary alerts w (registry_wf_ok _ Hwf)) as Hpass.
    destruct (CheckAlerts alerts w) as [[alerts' evs] w1]. simpl in *.
    by eapply pass_summary_wf.
Qed.

Lemma runOps_wf (ops : list RegistryOp) (alerts : gmap string Alert) (w : W) :
  registry_wf alerts → registry_wf (runOps ops alerts w).1.
Proof.
  revert alerts w. induction ops as [|op ops IH]; intros alerts w Hwf; [done|].
  cbn [runOps]. unfold bind.
  pose proof (runOp_wf op alerts w Hwf) as Hop.
  destruct (runOp op alerts w) as [alerts' w1]. simpl in Hop.
  by apply IH.
Qed.

(** X11. Whatever calls of [CreateAlert], [DeleteAlert] and [CheckAlerts]
    are made on a new alert service, in any order and at any times, every
    alert of the registry is stored under its own id, this id is the one
    that its ticker, condition and threshold give, and the alert has a
    trigger time exactly when it is not active. *)
Theorem X11_registry_invariant (ops : list RegistryOp) (w : W) (k : string)
    (a : Alert) :
  let alerts := (runOps ops ∅ w).1 in
  alerts !! k = Some a →
  ID a = k
  ∧ k = alertID (Ticker a) (Condition a) (Threshold a)
  ∧ (Active a = true ↔ TriggeredAt a = None)
  ∧ GetAlert (ID a) alerts = inl a.
Proof.
  intros alerts Hk.
  assert (Hwf : registry_wf alerts).
  { apply runOps_wf. intros k' a' Hk'. by rewrite lookup_empty in Hk'. }
  destruct (Hwf k a Hk) as (Hid & Hdef & Hact).
  split_and!; [done | congruence | done |].
  unfold GetAlert. by rewrite Hid, Hk.
Qed.

(** X12. The evaluation passes only deal with the alerts of the registry:
    they add and remove none, and every fetch, log entry and POST request
    is for an alert that is stored. After [DeleteAlert] no pass mentions the
    deleted alert. *)
Theorem X12_passes_only_touch_stored_alerts (ticks : nat)
    (alerts : gmap string Alert) (w : W) (id : string) :
  registry_ok alerts →
  let run := (StartAlertChecker ticks alerts w).1 in
  let deleted := (DeleteAlert id alerts).2 in
  let later := (StartAlertChecker ticks deleted w).1 in
  dom run.1 = dom alerts
  ∧ Forall (λ e, eventAlert e ∈ dom alerts) run.2
  ∧ later.1 !! id = None
  ∧ Forall (λ e, eventAlert e ≠ id) later.2.
Proof.
  intros Hok run deleted later.
  destruct (StartAlertChecker_summary ticks alerts w Hok) as (_ & Hdom & Hev & _).
  assert (Hokd : registry_ok deleted) by (by apply registry_ok_DeleteAlert).
  destruct (StartAlertChecker_summary ticks deleted w Hokd)
    as (_ & Hdom' & Hev' & _).
  fold later in Hdom', Hev'.
  assert (Hgone : id ∉ dom deleted).
  { subst deleted. unfold DeleteAlert.
    destruct (alerts !! id) as [a|] eqn:Hid; simpl.
    - rewrite dom_delete_L. intros [_ Hn]%elem_of_difference.
      apply Hn. by apply elem_of_singleton.
    - by apply not_elem_of_dom. }
  split_and!; [done | done | |].
  - apply not_elem_of_dom. by rewrite Hdom'.
  - eapply Forall_impl; [exact Hev'|]. intros e He Heq.
    cbv beta in He. rewrite Heq in He. done.
Qed.

End RegistryMore.

(** A registry built by three calls: the first alert was triggered by the
    pass and is still what [GetAlert] returns for its id. *)
Lemma X11_witness_create_check_create :
  let ops := [DoCreate "AAPL" ConditionAbove f100 "http://hook"; DoCheck;
              DoCreate "MSFT" ConditionBelow f100 ""] in
  let alerts := (runOps ops ∅ world0).1 in
  let a := mkAlert "AAPL-above-100.00" "AAPL" ConditionAbove f100
             "http://hook" false 5 (Some 5) in
  alerts !! "AAPL-above-100.00" = Some a
  ∧ GetAlert (ID a) alerts = inl a.
Proof.
  assert (Hk : (runOps [DoCreate "AAPL" ConditionAbove f100 "http://hook";
                        DoCheck; DoCreate "MSFT" ConditionBelow f100 ""]
                  ∅ world0).1 !! "AAPL-above-100.00"
               = Some (mkAlert "AAPL-above-100.00" "AAPL" ConditionAbove f100
                         "http://hook" false 5 (Some 5)))
    by (by vm_compute).
  split; [exact Hk|].
  pose proof (X11_registry_invariant _ world0 _ _ Hk) as (_ & _ & _ & Hget).
  exact Hget.
Defined.

(** The alert of the example, deleted before two ticks of the checker. *)
Lemma X12_witness_deleted_alert :
  let deleted := (DeleteAlert "AAPL-above-100.00" aaplAbove100.2).2 in
  (StartAlertChecker 2 deleted world0).1 = (∅, [])
  ∧ Forall (λ e, eventAlert e ≠ "AAPL-above-100.00")
           (StartAlertChecker 2 deleted world0).1.2.
Proof.
  split; [by vm_compute|].
  pose proof (X12_passes_only_touch_stored_alerts 2 aaplAbove100.2 world0
                "AAPL-above-100.00"
                (registry_ok_CreateAlert _ _ _ _ _ _ registry_ok_empty))
    as (_ & _ & _ & Hev).
  exact Hev.
Defined.

(** ** What a pass logs and sends *)

Lemma triggers_pos_logged k evs :
  (0 < triggers k evs)%nat →
  ∃ ticker price threshold condition,
    LogTriggered k ticker price threshold condition ∈ evs.
Proof.
  unfold triggers. induction evs as [|e evs IH]; simpl; [lia|].
  destruct (isTrigger e && bool_decide (eventAlert e = k)) eqn:He.
  - intros _. apply andb_true_iff in He as [Ht He].
    apply bool_decide_eq_true in He.
    destruct e; try done. simpl in He. subst.
    do 4 eexists. apply list_elem_of_here.
  - intros Hpos. destruct IH as (tk & p & thr & c & Hin); [lia|].
    do 4 eexists. by apply list_elem_of_further.
Qed.

Lemma justified_transfer (alerts alerts' : gmap string Alert) e :
  (∀ id a', alerts' !! id = Some a' →
            ∃ a, alerts !! id = Some a ∧ Ticker a = Ticker a'
                 ∧ Threshold a = Threshold a' ∧ Condition a = Condition a') →
  justified alerts' e → justified alerts e.
Proof.
  intros Hstatic. destruct e; simpl; try done.
  intros (Htrig & a' & Ha' & Ht & Hthr & Hc). split; [done|].
  destruct (Hstatic _ _ Ha') as (a & Ha & Ht' & Hthr' & Hc').
  exists a. split_and!; congruence.
Qed.

Lemma lifecycle_static a a' :
  lifecycle a a' →
  Ticker a = Ticker a' ∧ Threshold a = Threshold a'
  ∧ Condition a = Condition a'.
Proof. by intros [-> | [_ [now ->]]]. Qed.

Lemma pass_summary_justified (alerts alerts' : gmap string Alert) evs e :
  pass_summary alerts alerts' evs → justified alerts' e → justified alerts e.
Proof.
  intros (_ & Hdom & _ & Hpass). apply justified_transfer.
  intros id a' Ha'.
  assert (Hin : id ∈ dom alerts) by (rewrite <- Hdom; by eapply elem_of_dom_2).
  apply elem_of_dom in Hin as [a Ha].
  destruct (Hpass id a Ha) as (a'' & Ha'' & Hlc & _).
  assert (a'' = a') as -> by congruence.
  exists a. split; [done|]. by apply lifecycle_static.
Qed.

Section Justified.
Context {W : Type} `{Runtime W} `{PriceService W} `{Webhook W}.

Lemma sendWebhook_justified (alerts : gmap string Alert) (alert : Alert)
    (price : float64) (w : W) :
  Forall (justified alerts) (sendWebhook alert price w).1.2.
Proof.
  destruct (sendWebhook_events alert price w) as [-> | (payload & -> & _)];
    repeat constructor.
Qed.

Lemma checkAlert_justified (alerts : gmap string Alert) (alert : Alert) (w : W) :
  alerts !! ID alert = Some alert →
  Forall (justified alerts) (checkAlert alert w).1.2.
Proof.
  intros Hk. unfold checkAlert. destruct (Active alert); simpl; [|constructor].
  unfold bind. destruct (Service.FetchPrice (Ticker alert) w) as [[price|err] w1].
  - destruct (triggered _ _ _) eqn:Htrig.
    + pose proof (sendWebhook_justified alerts alert price w1) as Hsent.
      destruct (sendWebhook alert price w1) as [[err sent] w2].
      destruct (timeNow w2) as [now w3]. simpl in *.
      constructor; [done|]. constructor; [simpl; eauto 10|].
      apply Forall_app. split; [done|]. destruct err; repeat constructor.
    + repeat constructor.
  - repeat constructor.
Qed.

Lemma checkEach_justified order (alerts : gmap string Alert) (w : W) :
  registry_ok alerts →
  Forall (justified alerts) (checkEach order alerts w).1.2.
Proof.
  revert alerts w. induction order as [|k order IH]; intros alerts w Hok.
  - constructor.
  - simpl. destruct (alerts !! k) as [alert|] eqn:Hk; [|by apply IH].
    unfold bind.
    pose proof (pass_summary_round alerts k alert w Hok Hk) as Hround.
    assert (Hkk : alerts !! ID alert = Some alert).
    { destruct (Hok k alert Hk) as [-> _]. done. }
    pose proof (checkAlert_justified alerts alert w Hkk) as Hj.
    destruct (checkAlert alert w) as [[alert' evs] w1]. simpl in *.
    assert (Hok' : registry_ok (<[k := alert']> alerts)) by apply Hround.
    specialize (IH _ w1 Hok').
    destruct (checkEach order _ w1) as [[alerts' evs'] w2]. simpl in *.
    apply Forall_app. split; [done|].
    eapply Forall_impl; [exact IH|]. intros e.
    by apply (pass_summary_justified _ _ _ _ Hround).
Qed.

Lemma StartAlertChecker_justified ticks (alerts : gmap string Alert) (w : W) :
  registry_ok alerts →
  Forall (justified alerts) (StartAlertChecker ticks alerts w).1.2.
Proof.
  revert alerts w. induction ticks as [|ticks IH]; intros alerts w Hok.
  - constructor.
  - simpl. unfold bind.
    pose proof (CheckAlerts_summary alerts w Hok) as Hpass.
    assert (Hj : Forall (justified alerts) (CheckAlerts alerts w).1.2).
    { unfold CheckAlerts, bind.
      destruct (rangeKeys (dom alerts) w) as [order w0].
      by apply checkEach_justified. }
    destruct (CheckAlerts alerts w) as [[alerts1 evs] w1]. simpl in *.
    assert (Hok1 : registry_ok alerts1) by apply Hpass.
    specialize (IH _ w1 Hok1).
    destruct (StartAlertChecker ticks alerts1 w1) as [[alerts' evs'] w2].
    simpl in *. apply Forall_app. split; [done|].
    eapply Forall_impl; [exact IH|]. intros e.
    by apply (pass_summary_justified _ _ _ _ Hpass).
Qed.

(** X13. No alert is triggered without cause. Over any number of passes,
    every log entry [Alert triggered] carries a price that meets the
    condition and threshold of the alert that it names, and an alert that
    a run has changed has such an entry: it was found with a fetched price
    above its threshold, for [above], or below it, for [below]. *)
Theorem X13_no_trigger_without_a_price (ticks : nat)
    (alerts : gmap string Alert) (w : W) (k : string) (a a' : Alert) :
  registry_ok alerts →
  alerts !! k = Some a →
  let run := (StartAlertChecker ticks alerts w).1 in
  run.1 !! k = Some a' →
  Forall (justified alerts) run.2
  ∧ (a' ≠ a →
       ∃ price,
         LogTriggered k (Ticker a) price (Threshold a) (Condition a) ∈ run.2
         ∧ triggered (Condition a) price (Threshold a) = true
         ∧ (Condition a = ConditionAbove ∧ gt price (Threshold a) = true
            ∨ Condition a = ConditionBelow ∧ lt price (Threshold a) = true)).
Proof.
  intros Hok Hk run Hk'.
  pose proof (StartAlertChecker_justified ticks alerts w Hok) as Hj.
  fold run in Hj. split; [done|]. intros Hne.
  destruct (StartAlertChecker_summary ticks alerts w Hok) as (_ & _ & _ & Hrun).
  fold run in Hrun.
  destruct (Hrun k a Hk) as (a'' & Ha'' & Hlc & Htr & _).
  assert (a'' = a') as -> by congruence.
  assert (Hfired : fired a a' = 1%nat).
  { destruct Hlc as [-> | [Ha [now ->]]]; [done|].
    unfold fired. by rewrite Ha. }
  destruct (triggers_pos_logged k run.2) as (tk & p & thr & c & Hin); [lia|].
  rewrite Forall_forall in Hj. pose proof (Hj _ Hin) as Hjust.
  simpl in Hjust. destruct Hjust as (Htrig & a0 & Ha0 & <- & <- & <-).
  assert (a0 = a) as -> by congruence.
  exists p. split_and!; [done | done |].
  unfold triggered in Htrig.
  repeat case_bool_decide; try done; [by left | by right].
Qed.

(** X14. [sendWebhook] sends at most one POST request, and none for an
    alert without a webhook URL, for which it returns no error and leaves
    the world as it is, and none when the threshold or the price is not a
    finite number, which [json.Marshal] refuses. It returns no error
    exactly when the URL is empty or the request was sent and answered with
    a status from 200 to 299. *)
Theorem X14_sendWebhook_outcomes (alert : Alert) (price : float64) (w : W) :
  let url := WebhookURL alert in
  let now := timeNow w in
  let payload :=
    {| alert_id := ID alert; ticker := Ticker alert;
       condition := Condition alert; threshold := Threshold alert;
       current_price := price; triggered_at := now.1 |} in
  let r := sendWebhook alert price w in
  (url = "" → r = ((None, []), w))
  ∧ (r.1.2 = [] ∨ r.1.2 = [Posted url payload])
  ∧ (is_finite (Threshold alert) && is_finite price = false → r.1.2 = [])
  ∧ (r.1.1 = None
     ↔ url = ""
       ∨ (is_finite (Threshold alert) && is_finite price = true
          ∧ NewRequest url = None
          ∧ ∃ code, (Do url payload now.2).1 = Ok code
                    ∧ 200 ≤ code < 300)).
Proof.
  intros url now payload r. subst r. unfold sendWebhook. fold url.
  destruct (decide (url = "")) as [Hurl | Hurl].
  { rewrite bool_decide_eq_true_2 by done. split_and!; auto.
    split; auto. }
  rewrite bool_decide_eq_false_2 by done. unfold bind. fold now.
  destruct now as [t w1] eqn:Hnow. simpl in payload. fold payload.
  destruct (is_finite (Threshold alert) && is_finite price) eqn:Hfin; simpl.
  2:{ split_and!; auto; try done. split; [done|]. intros [? | [? _]]; done. }
  destruct (NewRequest url) as [err|] eqn:Hreq.
  { split_and!; auto; try done. split; [done|].
    intros [? | (_ & ? & _)]; done. }
  destruct (Do url payload w1) as [[code|err] w2] eqn:Hdo; simpl.
  - destruct ((code <? 200) || (300 <=? code)) eqn:Hcode; simpl.
    + split_and!; auto; try done. split; [done|].
      intros [? | (_ & _ & code' & [= <-] & Hc)]; [done|].
      apply orb_true_iff in Hcode as [?%Z.ltb_lt | ?%Z.leb_le]; lia.
    + split_and!; auto; try done. split; [|done]. intros _. right.
      split_and!; try done. exists code. split; [done|].
      apply orb_false_iff in Hcode as [?%Z.ltb_ge ?%Z.leb_gt]. lia.
  - split_and!; auto; try done. split; [done|].
    intros [? | (_ & _ & code' & [=] & _)]; done.
Qed.

End Justified.

(** The run of the example: the alert for AAPL above 100 is changed by the
    first tick, with the mock price of 150 in the log. *)
Lemma X13_witness_price_in_the_log :
  let run := (StartAlertChecker 3 aaplAbove100.2 world0).1 in
  LogTriggered "AAPL-above-100.00" "AAPL" f150 f100 ConditionAbove ∈ run.2
  ∧ Forall (justified aaplAbove100.2) run.2.
Proof.
  split.
  - vm_compute. apply list_elem_of_further, list_elem_of_here.
  - pose proof (X13_no_trigger_without_a_price 3 aaplAbove100.2 world0
                  "AAPL-above-100.00" aaplAbove100.1
                  (markTriggered 5 aaplAbove100.1)
                  (registry_ok_CreateAlert _ _ _ _ _ _ registry_ok_empty)
                  eq_refl) as Hx.
    destruct Hx as [Hj _]; [by vm_compute|]. exact Hj.
Defined.

(** ** internal/config/config.go *)

(** X15. A configuration that [LoadConfig] has read passes [Validate],
    whatever the environment is: the API key and the two addresses fall back
    to their defaults and are never empty. A variable that is set is taken
    as it is. The API key is the one that [NewAlphaVantageService] takes for
    the same environment. *)
Theorem X15_loaded_config_is_valid (Getenv : string → string) :
  let c := Config.LoadConfig Getenv in
  Config.Validate c = None
  ∧ Config.AlphaVantageKey c ≠ ""
  ∧ Config.JSONAddr c ≠ ""
  ∧ Config.GRPCAddr c ≠ ""
  ∧ (Config.UseRealData c = true ↔ Getenv "USE_REAL_DATA" = "true")
  ∧ (∀ key d, Getenv key ≠ "" →
              Config.getEnvWithDefault Getenv key d = Getenv key)
  ∧ (∀ key d, Getenv key = "" → Config.getEnvWithDefault Getenv key d = d)
  ∧ Config.AlphaVantageKey c
    = apiKey (NewAlphaVantageService (Getenv "ALPHA_VANTAGE_API_KEY")).
Proof.
  intros c.
  assert (Hdef : ∀ key d, d ≠ "" → Config.getEnvWithDefault Getenv key d ≠ "").
  { intros key d Hd. unfold Config.getEnvWithDefault. by case_bool_decide. }
  assert (Hkey : Config.AlphaVantageKey c ≠ "") by (by apply Hdef).
  split_and!.
  - unfold Config.Validate.
    rewrite (bool_decide_eq_false_2 (Config.AlphaVantageKey c = "")) by done.
    by rewrite andb_false_r.
  - done.
  - by apply Hdef.
  - by apply Hdef.
  - simpl. apply bool_decide_eq_true.
  - intros key d Hset. unfold Config.getEnvWithDefault.
    by rewrite bool_decide_eq_true_2.
  - intros key d Hunset. unfold Config.getEnvWithDefault.
    rewrite bool_decide_eq_false_2; [done|]. by intros Hn.
  - simpl. unfold Config.getEnvWithDefault.
    destruct (decide (Getenv "ALPHA_VANTAGE_API_KEY" = "")) as [He | He].
    + rewrite bool_decide_eq_false_2 by (by intros Hn).
      by rewrite bool_decide_eq_true_2.
    + rewrite bool_decide_eq_true_2 by done.
      by rewrite bool_decide_eq_false_2.
Qed.

(** ** The mock of the history *)

(** X16. [MockPriceHistoryFetcher] does not look at the range of dates: its
    result is the same for every [fromDate] and [toDate]. It fails exactly
    for the tickers for which [MockPriceFetcher] fails, and otherwise
    returns the five days from 2024-01-01 to 2024-01-05, in ascending
    order. *)
Theorem X16_mock_history_ignores_the_range (ticker fromDate toDate
    fromDate' toDate' : string) :
  MockPriceHistoryFetcher ticker fromDate toDate
  = MockPriceHistoryFetcher ticker fromDate' toDate'
  ∧ is_ok (MockPriceHistoryFetcher ticker fromDate toDate)
    = is_ok (MockPriceFetcher ticker)
  ∧ (priceMocks !! ticker = None →
       MockPriceHistoryFetcher ticker fromDate toDate
       = Err ("ticker not found: " +:+ ticker))
  ∧ ∀ points, MockPriceHistoryFetcher ticker fromDate toDate = Ok points →
      Date <$> points = ["2024-01-01"; "2024-01-02"; "2024-01-03";
                         "2024-01-04"; "2024-01-05"]
      ∧ ascending points = true.
Proof.
  unfold MockPriceHistoryFetcher, MockPriceFetcher.
  destruct (priceMocks !! ticker) as [basePrice|]; simpl.
  - split_and!; try done. intros points [= <-]. by split.
  - split_and!; done.
Qed.

(** ** The methods of the service and the bound of the cache *)

Section MethodsBounded.
Context {W : Type} `{Runtime W} `{Upstream W}.

Lemma reachable_maxCacheSize (s : AlphaVantageService) :
  reachable (W := W) s → maxCacheSize s = defaultMaxCacheSize.
Proof.
  induction 1 as [key | s t p w _ IH | s k h w _ IH | s _ IH | s d _ IH].
  - done.
  - rewrite setCachedPrice_setCached, setCached_maxCacheSize. done.
  - rewrite setCachedHistory_setCached, setCached_maxCacheSize. done.
  - done.
  - done.
Qed.

Lemma FetchPrice_reachable (ticker : string) (s : AlphaVantageService) (w : W) :
  reachable (W := W) s →
  reachable (W := W) (AlphaVantage.FetchPrice ticker s w).1.2.
Proof.
  intros Hreach. unfold AlphaVantage.FetchPrice, bind.
  destruct (getCachedPrice ticker s w) as [[cached found] w1].
  destruct found; [done|].
  destruct (fetchQuote ticker s w1) as [[p|err] w2]; [|done].
  pose proof (reach_setCachedPrice s ticker p w2 Hreach) as Hset.
  by destruct (setCachedPrice ticker p s w2) as [s' w3].
Qed.

Lemma fetchEach_reachable sched (s : AlphaVantageService)
    (results : gmap string float64) errors (w : W) :
  reachable (W := W) s →
  reachable (W := W) (fetchEach sched s results errors w).1.2.
Proof.
  revert s results errors w.
  induction sched as [|t sched IH]; intros s results errors w Hreach; [done|].
  simpl. unfold bind.
  pose proof (FetchPrice_reachable t s w Hreach) as Hstep.
  destruct (AlphaVantage.FetchPrice t s w) as [[[p|err] s1] w1];
    simpl in Hstep; by apply IH.
Qed.

Lemma FetchPrices_reachable tickers (s : AlphaVantageService) (w : W) :
  reachable (W := W) s →
  reachable (W := W) (AlphaVantage.FetchPrices tickers s w).1.2.
Proof.
  intros Hreach. unfold AlphaVantage.FetchPrices, bind.
  destruct (goSchedule tickers w) as [sched w1].
  pose proof (fetchEach_reachable sched s ∅ [] w1 Hreach) as Hrun.
  destruct (fetchEach sched s ∅ [] w1) as [[[results errors] s1] w2].
  simpl in Hrun. by case_verdict.
Qed.

Lemma FetchPriceHistory_reachable ticker fromDate toDate
    (s : AlphaVantageService) (w : W) :
  reachable (W := W) s →
  reachable (W := W)
    (AlphaVantage.FetchPriceHistory ticker fromDate toDate s w).1.2.
Proof.
  intros Hreach. unfold AlphaVantage.FetchPriceHistory, bind.
  destruct (getCachedHistory _ s w) as [[cached found] w1].
  destruct found; [done|].
  destruct (httpGet _ _ w1) as [[err | err | code body] w2]; [done | done |].
  destruct (bool_decide (code ≠ 200)); [done|].
  destruct body as [body|err]; [|done].
  destruct (UnmarshalObject body) as [avResponse|err]; [|done].
  destruct (avResponse !! "Time Series (Daily)") as [[| | | | |timeSeries]|];
    try done.
  destruct (rangeKeys (dom timeSeries) w2) as [order w3].
  match goal with
  | |- context [setCachedHistory ?k ?h s w3] =>
      pose proof (reach_setCachedHistory s k h w3 Hreach) as Hset;
      by destruct (setCachedHistory k h s w3) as [s' w4]
  end.
Qed.

(** X17. The methods of the service keep the bound of the cache. From a
    service that the package can build, [FetchPrice], a batch of
    [FetchPrices], [FetchPriceHistory] and [ClearCache] each leave a
    service that the package can build, whatever the upstream answers: its
    [maxCacheSize] is still 1000 and its cache holds at most 1000
    entries. *)
Theorem X17_methods_keep_the_cache_bounded (ticker fromDate toDate : string)
    (tickers : list string) (s : AlphaVantageService) (w : W) :
  reachable (W := W) s →
  ∀ s', s' ∈ [ (AlphaVantage.FetchPrice ticker s w).1.2;
               (AlphaVantage.FetchPrices tickers s w).1.2;
               (AlphaVantage.FetchPriceHistory ticker fromDate toDate s w).1.2;
               ClearCache s ] →
        reachable (W := W) s'
        ∧ maxCacheSize s' = 1000
        ∧ Z.of_nat (size (cache s')) ≤ 1000.
Proof.
  intros Hreach s' Hin.
  assert (Hr : reachable (W := W) s').
  { repeat (apply elem_of_cons in Hin as [-> | Hin]).
    - by apply FetchPrice_reachable.
    - by apply FetchPrices_reachable.
    - by apply FetchPriceHistory_reachable.
    - by constructor.
    - by apply elem_of_nil in Hin. }
  split; [done|].
  pose proof (reachable_maxCacheSize s' Hr) as Hmax.
  destruct (reachable_bounded s' Hr) as [_ Hle].
  rewrite Hmax in Hle. done.
Qed.

End MethodsBounded.

(** A new service after a batch for two tickers. *)
Lemma X17_witness_batch_on_a_new_service :
  Z.of_nat (size (cache (AlphaVantage.FetchPrices ["AAPL"; "MSFT"]
                           (NewAlphaVantageService "") world0).1.2)) ≤ 1000.
Proof.
  refine (proj2 (proj2 (X17_methods_keep_the_cache_bounded "AAPL" "" ""
                          ["AAPL"; "MSFT"] (NewAlphaVantageService "") world0
                          (reach_new "") _ _))).
  apply list_elem_of_further, list_elem_of_here.
Defined.

